(** * lockfree_circulation_buffer: the packed state word and its protocol

    A shallow embedding of [include/lockfree/lockfree_circulation_buffer.hpp]
    (single-producer, single-consumer ring buffer whose two cursors and two
    lock bits live in one atomic 32-bit word), followed by the properties of
    the reservation / commit / abort protocol.

    Integers are modelled as [Z] with every C++ conversion written out:
    [u16] for [index_t], [u32] for [uint32_t] and [unsigned int], [usize]
    for [size_t]. *)

From Stdlib Require Import ZArith Lia Bool List.
From stdpp Require Import base list.
#[local] Unset Default Proof Using.
Local Open Scope Z_scope.

(** ** Instantiation *)

(** The template argument [N] and the width of [size_t] on the target. *)
Class instantiation : Type := {
  N : Z;
  size_bits : Z
}.

(** The constructor's [static_assert]:
    [(N >= 2) && (N <= 32768) && ((N & (N - 1)) == 0)]. *)
Definition static_assert_N {cfg : instantiation} : bool :=
  (2 <=? N) && (N <=? 32768) && (Z.land N (N - 1) =? 0).

(** An instantiation that compiles: the [static_assert] holds and [size_t]
    is at least as wide as [uint32_t]. *)
Definition instantiable {cfg : instantiation} : bool :=
  static_assert_N && (32 <=? size_bits).

(** ** Fixed-width unsigned integers *)

Definition u16 (z : Z) : Z := z mod 2 ^ 16.
Definition u32 (z : Z) : Z := z mod 2 ^ 32.
Definition usize {cfg : instantiation} (z : Z) : Z := z mod 2 ^ size_bits.

(** [~m] on a [uint32_t]. *)
Definition not32 (m : Z) : Z := u32 (Z.lnot m).

(** ** Constants *)

(** [static_cast<index_t>(-1)] *)
Definition INVALID_INDEX : Z := u16 (-1).

Definition WRITE_POINTER_MASK : Z := 0x00007fff.
Definition WRITE_LOCK_BIT_MASK : Z := 0x00008000.
Definition READ_POINTER_MASK : Z := 0x7fff0000.
Definition READ_LOCK_BIT_MASK : Z := 0x80000000.

(** ** Accessors of the state word *)

Definition write_pointer (x : Z) : Z :=
  u16 (Z.shiftr (Z.land x WRITE_POINTER_MASK) 0).

Definition is_write_locked (x : Z) : bool :=
  negb (Z.land x WRITE_LOCK_BIT_MASK =? 0).

Definition read_pointer (x : Z) : Z :=
  u16 (Z.shiftr (Z.land x READ_POINTER_MASK) 16).

Definition is_read_locked (x : Z) : bool :=
  negb (Z.land x READ_LOCK_BIT_MASK =? 0).

(** [(x + 1U) % N]: the sum is an [unsigned int], the remainder a [size_t],
    the result an [index_t]. *)
Definition next_pointer {cfg : instantiation} (x : Z) : Z :=
  u16 (usize (u32 (x + 1)) mod N).

(** [(x - 1U) % N], with the same conversions; the subtraction wraps in
    [unsigned int] when [x] is 0. *)
Definition prev_pointer {cfg : instantiation} (x : Z) : Z :=
  u16 (usize (u32 (x - 1)) mod N).

(** [(x & ~WRITE_POINTER_MASK) | (wp << 0U)] *)
Definition mod_write_pointer (x wp : Z) : Z :=
  Z.lor (Z.land x (not32 WRITE_POINTER_MASK)) (u32 (Z.shiftl wp 0)).

(** [(x & ~READ_POINTER_MASK) | (rp << 16U)]; the shifted [int] is converted
    to [uint32_t] by the [|]. *)
Definition mod_read_pointer (x rp : Z) : Z :=
  Z.lor (Z.land x (not32 READ_POINTER_MASK)) (u32 (Z.shiftl rp 16)).

Definition mod_write_locked (x : Z) (locked : bool) : Z :=
  if locked then Z.lor x WRITE_LOCK_BIT_MASK
  else Z.land x (not32 WRITE_LOCK_BIT_MASK).

Definition mod_read_locked (x : Z) (locked : bool) : Z :=
  if locked then Z.lor x READ_LOCK_BIT_MASK
  else Z.land x (not32 READ_LOCK_BIT_MASK).

(** [count]: [wp - rp] is computed on promoted [int]s and converted to
    [size_t]; [N - rp + wp] is computed in [size_t]. *)
Definition count {cfg : instantiation} (x : Z) : Z :=
  let rp := read_pointer x in
  let wp := write_pointer x in
  if rp <=? wp then usize (wp - rp)
  else usize (usize (N - rp) + wp).

(** ** Read-only snapshots *)

Definition empty (rpwp : Z) : bool :=
  read_pointer rpwp =? write_pointer rpwp.

Definition size {cfg : instantiation} (rpwp : Z) : Z := count rpwp.

Definition capacity {cfg : instantiation} : Z := usize (N - 1).

Definition full {cfg : instantiation} (rpwp : Z) : bool :=
  size rpwp =? capacity.

(** ** Bodies of the compare-and-swap loops

    Every mutating operation is
    [expected = rpwp_.load(); do { body } while (!rpwp_.compare_exchange_weak(expected, desired));]
    A body maps the observed word [expected] to [Some desired], or to [None]
    when it sets [result = false] and leaves the loop with [break]. *)

(** [const size_t free_count = (N - 1) - count(expected);] *)
Definition free_count {cfg : instantiation} (expected : Z) : Z :=
  usize ((N - 1) - count expected).

Definition lock_write_body {cfg : instantiation}
    (min_free expected : Z) : option Z :=
  if is_write_locked expected then None
  else if negb (min_free <? free_count expected) then None
  else Some (mod_write_locked expected true).

Definition unlock_write_body {cfg : instantiation}
    (index : Z) (commit : bool) (expected : Z) : option Z :=
  if negb (index =? write_pointer expected) then None
  else if negb (is_write_locked expected) then None
  else
    let desired :=
      if commit then
        let next_wp := next_pointer (write_pointer expected) in
        mod_write_pointer expected next_wp
      else expected in
    Some (mod_write_locked desired false).

Definition lock_read_body {cfg : instantiation}
    (min_remains expected : Z) : option Z :=
  if is_read_locked expected then None
  else if negb (min_remains <? count expected) then None
  else Some (mod_read_locked expected true).

Definition unlock_read_body {cfg : instantiation}
    (index : Z) (commit : bool) (expected : Z) : option Z :=
  if negb (index =? read_pointer expected) then None
  else if negb (is_read_locked expected) then None
  else
    let desired :=
      if commit then
        let next_rp := next_pointer (read_pointer expected) in
        mod_read_pointer expected next_rp
      else expected in
    Some (mod_read_locked desired false).

Definition try_clear_body (expected : Z) : option Z :=
  if negb (is_write_locked expected) && negb (is_read_locked expected)
  then Some (mod_read_pointer expected (write_pointer expected))
  else None.

(** ** The operations, run by one thread at a time

    With no concurrent writer the word loaded into [expected] is still the
    content of [rpwp_] at the compare-and-swap; a spurious failure of the
    weak form reloads the same word and repeats the same body.  The loop
    therefore ends after one evaluation of its body: by [break], without a
    compare-and-swap, or with [desired] stored.  [cas_loop] returns the
    body's outcome and the content of [rpwp_] afterwards. *)
Definition cas_loop (body : Z -> option Z) (rpwp : Z) : option Z * Z :=
  let expected := rpwp in
  match body expected with
  | None => (None, rpwp)
  | Some desired => (Some desired, desired)
  end.

(** [lock_write]: returns [(result, index)] and the new state word. *)
Definition lock_write {cfg : instantiation}
    (rpwp min_free : Z) : (bool * Z) * Z :=
  match cas_loop (lock_write_body min_free) rpwp with
  | (Some desired, rpwp') => ((true, write_pointer desired), rpwp')
  | (None, rpwp') => ((false, INVALID_INDEX), rpwp')
  end.

Definition unlock_write {cfg : instantiation}
    (rpwp index : Z) (commit : bool) : bool * Z :=
  match cas_loop (unlock_write_body index commit) rpwp with
  | (Some _, rpwp') => (true, rpwp')
  | (None, rpwp') => (false, rpwp')
  end.

Definition lock_read {cfg : instantiation}
    (rpwp min_remains : Z) : (bool * Z) * Z :=
  match cas_loop (lock_read_body min_remains) rpwp with
  | (Some desired, rpwp') => ((true, read_pointer desired), rpwp')
  | (None, rpwp') => ((false, INVALID_INDEX), rpwp')
  end.

Definition unlock_read {cfg : instantiation}
    (rpwp index : Z) (commit : bool) : bool * Z :=
  match cas_loop (unlock_read_body index commit) rpwp with
  | (Some _, rpwp') => (true, rpwp')
  | (None, rpwp') => (false, rpwp')
  end.

Definition try_clear (rpwp : Z) : bool * Z :=
  match cas_loop try_clear_body rpwp with
  | (Some _, rpwp') => (true, rpwp')
  | (None, rpwp') => (false, rpwp')
  end.

(** [clear]: [while (!try_clear()) ;].  [fuel] bounds the number of
    attempts; [None] means that the loop is still spinning. *)
Fixpoint clear (fuel : nat) (rpwp : Z) : option Z :=
  match fuel with
  | O => None
  | S fuel' =>
      match try_clear rpwp with
      | (true, rpwp') => Some rpwp'
      | (false, rpwp') => clear fuel' rpwp'
      end
  end.

(** ** The loop with its compare-and-swap

    [rpwp_.compare_exchange_weak(expected, desired)] returns whether it
    stored [desired], the content of [rpwp_] afterwards and the new value of
    [expected].  [spurious] makes the weak form fail although [rpwp_] holds
    [expected]. *)
Definition compare_exchange_weak
    (spurious : bool) (rpwp expected desired : Z) : bool * Z * Z :=
  if (rpwp =? expected) && negb spurious then (true, desired, expected)
  else (false, rpwp, rpwp).

(** The loop as it is written.  [attempts] lists, for the successive calls
    of [compare_exchange_weak], whether the call fails spuriously; the
    result is [None] when the list ends before the loop does. *)
Fixpoint cas_loop_weak (body : Z -> option Z) (attempts : list bool)
    (rpwp expected : Z) : option (option Z * Z) :=
  match body expected with
  | None => Some (None, rpwp)
  | Some desired =>
      match attempts with
      | [] => None
      | spurious :: attempts' =>
          match compare_exchange_weak spurious rpwp expected desired with
          | (true, rpwp', _) => Some (Some desired, rpwp')
          | (false, rpwp', expected') =>
              cas_loop_weak body attempts' rpwp' expected'
          end
      end
  end.

(** ** Ranges of the fields *)

Definition uint32 (x : Z) : Prop := 0 <= x < 2 ^ 32.
Definition uint15 (x : Z) : Prop := 0 <= x < 2 ^ 15.

(** ** States a buffer can be in

    [rpwp_] is private: it starts at 0 and changes only through the public
    operations, called with any arguments. *)
Inductive reachable {cfg : instantiation} : Z -> Prop :=
| reachable_constructed : reachable 0
| reachable_lock_write rpwp min_free :
    reachable rpwp -> reachable (snd (lock_write rpwp min_free))
| reachable_unlock_write rpwp index commit :
    reachable rpwp -> reachable (snd (unlock_write rpwp index commit))
| reachable_lock_read rpwp min_remains :
    reachable rpwp -> reachable (snd (lock_read rpwp min_remains))
| reachable_unlock_read rpwp index commit :
    reachable rpwp -> reachable (snd (unlock_read rpwp index commit))
| reachable_try_clear rpwp :
    reachable rpwp -> reachable (snd (try_clear rpwp))
| reachable_clear rpwp fuel rpwp' :
    reachable rpwp -> clear fuel rpwp = Some rpwp' -> reachable rpwp'.

(** ** The buffer with its storage *)

(** The two data members, [rpwp_] and [T elements_[N]]. *)
Record buffer (T : Type) : Type := {
  rpwp_ : Z;
  elements_ : list T
}.
Arguments rpwp_ {T} _.
Arguments elements_ {T} _.

(** The constructor sets [rpwp_(0)]; [init] is what the default construction
    of the [N] elements leaves in the array. *)
Definition lockfree_circulation_buffer {T : Type} (init : list T) : buffer T :=
  {| rpwp_ := 0; elements_ := init |}.

(** [at(index)], read: [None] stands for an access outside the array, which
    the source leaves undefined. *)
Definition at_ {T : Type} (b : buffer T) (index : Z) : option T :=
  elements_ b !! Z.to_nat index.

(** [at(index) = v] *)
Definition at_put {T : Type} (b : buffer T) (index : Z) (v : T) : buffer T :=
  {| rpwp_ := rpwp_ b; elements_ := <[Z.to_nat index := v]> (elements_ b) |}.

(** *** Cycles of a caller

    A write cycle is [lock_write(index, min_free)], a store into
    [at(index)], and [unlock_write(index, commit)]; a read cycle is
    [lock_read(index, min_remains)], a load from [at(index)], and
    [unlock_read(index, commit)].  A cycle is [None] as soon as one of its
    calls returns [false]. *)
Definition write_cycle {cfg : instantiation} {T : Type}
    (min_free : Z) (commit : bool) (v : T) (b : buffer T) : option (buffer T) :=
  match lock_write (rpwp_ b) min_free with
  | ((true, index), rpwp1) =>
      let b1 := at_put {| rpwp_ := rpwp1; elements_ := elements_ b |} index v in
      match unlock_write (rpwp_ b1) index commit with
      | (true, rpwp2) => Some {| rpwp_ := rpwp2; elements_ := elements_ b1 |}
      | (false, _) => None
      end
  | ((false, _), _) => None
  end.

Definition read_cycle {cfg : instantiation} {T : Type}
    (min_remains : Z) (commit : bool) (b : buffer T) : option (T * buffer T) :=
  match lock_read (rpwp_ b) min_remains with
  | ((true, index), rpwp1) =>
      let b1 := {| rpwp_ := rpwp1; elements_ := elements_ b |} in
      match at_ b1 index with
      | Some v =>
          match unlock_read (rpwp_ b1) index commit with
          | (true, rpwp2) =>
              Some (v, {| rpwp_ := rpwp2; elements_ := elements_ b1 |})
          | (false, _) => None
          end
      | None => None
      end
  | ((false, _), _) => None
  end.

(** [k] committed write cycles with the default [min_free = 0], storing
    [vs] in order. *)
Fixpoint write_all {cfg : instantiation} {T : Type}
    (vs : list T) (b : buffer T) : option (buffer T) :=
  match vs with
  | [] => Some b
  | v :: vs' =>
      match write_cycle 0 true v b with
      | Some b' => write_all vs' b'
      | None => None
      end
  end.

(** [k] committed read cycles with the default [min_remains = 0]; the values
    read, in order. *)
Fixpoint read_n {cfg : instantiation} {T : Type}
    (k : nat) (b : buffer T) : option (list T * buffer T) :=
  match k with
  | O => Some ([], b)
  | S k' =>
      match read_cycle 0 true b with
      | Some (v, b') =>
          match read_n k' b' with
          | Some (vs, b'') => Some (v :: vs, b'')
          | None => None
          end
      | None => None
      end
  end.

(** Aborted cycles: each write cycle has its own [min_free] and the value it
    leaves in the reserved slot; each read cycle its own [min_remains]. *)
Fixpoint abort_writes {cfg : instantiation} {T : Type}
    (args : list (Z * T)) (b : buffer T) : option (buffer T) :=
  match args with
  | [] => Some b
  | (min_free, v) :: args' =>
      match write_cycle min_free false v b with
      | Some b' => abort_writes args' b'
      | None => None
      end
  end.

Fixpoint abort_reads {cfg : instantiation} {T : Type}
    (args : list Z) (b : buffer T) : option (buffer T) :=
  match args with
  | [] => Some b
  | min_remains :: args' =>
      match read_cycle min_remains false b with
      | Some (_, b') => abort_reads args' b'
      | None => None
      end
  end.

(** ** Well-formed state words *)

(** A 32-bit word whose two cursors index the array. *)
Definition well_formed {cfg : instantiation} (rpwp : Z) : Prop :=
  uint32 rpwp /\ write_pointer rpwp < N /\ read_pointer rpwp < N.

(** ** A concrete instantiation

    [lockfree_circulation_buffer<T, 4>] on a target with a 64-bit
    [size_t]: usable capacity 3. *)
Definition buffer4 : instantiation := {| N := 4; size_bits := 64 |}.

(** ** One producer and one consumer, interleaved

    The producer thread runs write cycles and the consumer thread runs read
    cycles on one shared buffer.  A step of a thread is one access to the
    shared buffer: the [load] that starts a loop, one evaluation of a loop
    body ended by [break] or by a [compare_exchange_weak], or the access to
    the reserved slot.  Any interleaving of the steps of the two threads is
    a run.  The arguments [min_free] and [min_remains] are [size_t]
    values. *)

(** Where the producer is in its write cycle. *)
Inductive producer_state (T : Type) : Type :=
| P_idle
| P_lock_write (min_free expected : Z)
| P_locked (index : Z)
| P_stored (index : Z) (commit : bool) (v : T)
| P_unlock_write (index : Z) (commit : bool) (v : T) (expected : Z).
Arguments P_idle {T}.
Arguments P_lock_write {T} _ _.
Arguments P_locked {T} _.
Arguments P_stored {T} _ _ _.
Arguments P_unlock_write {T} _ _ _ _.

(** Where the consumer is in its read cycle. *)
Inductive consumer_state (T : Type) : Type :=
| C_idle
| C_lock_read (min_remains expected : Z)
| C_locked (index : Z)
| C_loaded (index : Z) (commit : bool) (v : T)
| C_unlock_read (index : Z) (commit : bool) (v : T) (expected : Z).
Arguments C_idle {T}.
Arguments C_lock_read {T} _ _.
Arguments C_locked {T} _.
Arguments C_loaded {T} _ _ _.
Arguments C_unlock_read {T} _ _ _ _.

(** Steps of the producer on the shared buffer.  The list is the log of the
    values of its committed cycles, extended when [unlock_write(index,
    true)] stores its word. *)
Inductive producer_step {cfg : instantiation} {T : Type} :
  buffer T -> producer_state T -> list T ->
  buffer T -> producer_state T -> list T -> Prop :=
| lock_write_load b log min_free :
    0 <= min_free < 2 ^ size_bits ->
    producer_step b P_idle log
                  b (P_lock_write min_free (rpwp_ b)) log
| lock_write_break b log min_free expected :
    lock_write_body min_free expected = None ->
    producer_step b (P_lock_write min_free expected) log
                  b P_idle log
| lock_write_cas b log min_free expected desired spurious rpwp' expected' :
    lock_write_body min_free expected = Some desired ->
    compare_exchange_weak spurious (rpwp_ b) expected desired =
      (true, rpwp', expected') ->
    producer_step b (P_lock_write min_free expected) log
                  {| rpwp_ := rpwp'; elements_ := elements_ b |}
                  (P_locked (write_pointer desired)) log
| lock_write_retry b log min_free expected desired spurious rpwp' expected' :
    lock_write_body min_free expected = Some desired ->
    compare_exchange_weak spurious (rpwp_ b) expected desired =
      (false, rpwp', expected') ->
    producer_step b (P_lock_write min_free expected) log
                  {| rpwp_ := rpwp'; elements_ := elements_ b |}
                  (P_lock_write min_free expected') log
| slot_store b log index commit v :
    producer_step b (P_locked index) log
                  (at_put b index v) (P_stored index commit v) log
| unlock_write_load b log index commit v :
    producer_step b (P_stored index commit v) log
                  b (P_unlock_write index commit v (rpwp_ b)) log
| unlock_write_break b log index commit v expected :
    unlock_write_body index commit expected = None ->
    producer_step b (P_unlock_write index commit v expected) log
                  b P_idle log
| unlock_write_cas b log index commit v expected desired spurious rpwp' expected' :
    unlock_write_body index commit expected = Some desired ->
    compare_exchange_weak spurious (rpwp_ b) expected desired =
      (true, rpwp', expected') ->
    producer_step b (P_unlock_write index commit v expected) log
                  {| rpwp_ := rpwp'; elements_ := elements_ b |}
                  P_idle (if commit then log ++ [v] else log)
| unlock_write_retry b log index commit v expected desired spurious rpwp' expected' :
    unlock_write_body index commit expected = Some desired ->
    compare_exchange_weak spurious (rpwp_ b) expected desired =
      (false, rpwp', expected') ->
    producer_step b (P_unlock_write index commit v expected) log
                  {| rpwp_ := rpwp'; elements_ := elements_ b |}
                  (P_unlock_write index commit v expected') log.

(** Steps of the consumer.  The list is the log of the values read in its
    committed cycles, extended when the slot is loaded. *)
Inductive consumer_step {cfg : instantiation} {T : Type} :
  buffer T -> consumer_state T -> list T ->
  buffer T -> consumer_state T -> list T -> Prop :=
| lock_read_load b log min_remains :
    0 <= min_remains < 2 ^ size_bits ->
    consumer_step b C_idle log
                  b (C_lock_read min_remains (rpwp_ b)) log
| lock_read_break b log min_remains expected :
    lock_read_body min_remains expected = None ->
    consumer_step b (C_lock_read min_remains expected) log
                  b C_idle log
| lock_read_cas b log min_remains expected desired spurious rpwp' expected' :
    lock_read_body min_remains expected = Some desired ->
    compare_exchange_weak spurious (rpwp_ b) expected desired =
      (true, rpwp', expected') ->
    consumer_step b (C_lock_read min_remains expected) log
                  {| rpwp_ := rpwp'; elements_ := elements_ b |}
                  (C_locked (read_pointer desired)) log
| lock_read_retry b log min_remains expected desired spurious rpwp' expected' :
    lock_read_body min_remains expected = Some desired ->
    compare_exchange_weak spurious (rpwp_ b) expected desired =
      (false, rpwp', expected') ->
    consumer_step b (C_lock_read min_remains expected) log
                  {| rpwp_ := rpwp'; elements_ := elements_ b |}
                  (C_lock_read min_remains expected') log
| slot_load b log index commit v :
    at_ b index = Some v ->
    consumer_step b (C_locked index) log
                  b (C_loaded index commit v) (if commit then log ++ [v] else log)
| unlock_read_load b log index commit v :
    consumer_step b (C_loaded index commit v) log
                  b (C_unlock_read index commit v (rpwp_ b)) log
| unlock_read_break b log index commit v expected :
    unlock_read_body index commit expected = None ->
    consumer_step b (C_unlock_read index commit v expected) log
                  b C_idle log
| unlock_read_cas b log index commit v expected desired spurious rpwp' expected' :
    unlock_read_body index commit expected = Some desired ->
    compare_exchange_weak spurious (rpwp_ b) expected desired =
      (true, rpwp', expected') ->
    consumer_step b (C_unlock_read index commit v expected) log
                  {| rpwp_ := rpwp'; elements_ := elements_ b |}
                  C_idle log
| unlock_read_retry b log index commit v expected desired spurious rpwp' expected' :
    unlock_read_body index commit expected = Some desired ->
    compare_exchange_weak spurious (rpwp_ b) expected desired =
      (false, rpwp', expected') ->
    consumer_step b (C_unlock_read index commit v expected) log
                  {| rpwp_ := rpwp'; elements_ := elements_ b |}
                  (C_unlock_read index commit v expected') log.

(** The two threads, the buffer they share, and the two logs. *)
Record system (T : Type) : Type := {
  shared : buffer T;
  producer : producer_state T;
  consumer : consumer_state T;
  committed : list T;
  consumed : list T
}.
Arguments shared {T} _.
Arguments producer {T} _.
Arguments consumer {T} _.
Arguments committed {T} _.
Arguments consumed {T} _.

Inductive step {cfg : instantiation} {T : Type} : system T -> system T -> Prop :=
| step_producer b p c W R b' p' W' :
    producer_step b p W b' p' W' ->
    step {| shared := b; producer := p; consumer := c;
            committed := W; consumed := R |}
         {| shared := b'; producer := p'; consumer := c;
            committed := W'; consumed := R |}
| step_consumer b p c W R b' c' R' :
    consumer_step b c R b' c' R' ->
    step {| shared := b; producer := p; consumer := c;
            committed := W; consumed := R |}
         {| shared := b'; producer := p; consumer := c';
            committed := W; consumed := R' |}.

(** Both threads idle on a freshly constructed buffer. *)
Definition start {T : Type} (init : list T) : system T :=
  {| shared := lockfree_circulation_buffer init;
     producer := P_idle; consumer := C_idle;
     committed := []; consumed := [] |}.

(** Any interleaving: the reflexive and transitive closure of [step]. *)
Inductive run {cfg : instantiation} {T : Type} : system T -> system T -> Prop :=
| run_refl s : run s s
| run_step s1 s2 s3 : run s1 s2 -> step s2 s3 -> run s1 s3.

(** *** The invariant of the interleaved runs *)

(** The consumer has logged a value whose cycle it has not committed yet. *)
Definition pending {T : Type} (c : consumer_state T) : Z :=
  match c with
  | C_loaded _ true _ | C_unlock_read _ true _ _ => 1
  | _ => 0
  end.

(** Number of committed write cycles and of committed read cycles. *)
Definition writes_done {T : Type} (s : system T) : Z :=
  Z.of_nat (length (committed s)).

Definition reads_done {T : Type} (s : system T) : Z :=
  Z.of_nat (length (consumed s)) - pending (consumer s).

Definition producer_inv {cfg : instantiation} {T : Type} (s : system T) : Prop :=
  let w := rpwp_ (shared s) in
  match producer s with
  | P_idle => is_write_locked w = false
  | P_lock_write min_free _ => is_write_locked w = false /\ 0 <= min_free
  | P_locked index =>
      is_write_locked w = true /\ index = write_pointer w /\
      writes_done s - reads_done s <= N - 2
  | P_stored index _ v =>
      is_write_locked w = true /\ index = write_pointer w /\
      writes_done s - reads_done s <= N - 2 /\
      elements_ (shared s) !! Z.to_nat index = Some v
  | P_unlock_write index _ v expected =>
      is_write_locked w = true /\ index = write_pointer w /\
      writes_done s - reads_done s <= N - 2 /\
      elements_ (shared s) !! Z.to_nat index = Some v /\
      write_pointer expected = write_pointer w /\
      is_write_locked expected = true
  end.

Definition consumer_inv {cfg : instantiation} {T : Type} (s : system T) : Prop :=
  let w := rpwp_ (shared s) in
  match consumer s with
  | C_idle => is_read_locked w = false
  | C_lock_read min_remains _ => is_read_locked w = false /\ 0 <= min_remains
  | C_locked index | C_loaded index _ _ =>
      is_read_locked w = true /\ index = read_pointer w /\
      reads_done s < writes_done s
  | C_unlock_read index _ _ expected =>
      is_read_locked w = true /\ index = read_pointer w /\
      reads_done s < writes_done s /\
      read_pointer expected = read_pointer w /\
      is_read_locked expected = true
  end.

Definition system_inv {cfg : instantiation} {T : Type} (s : system T) : Prop :=
  length (elements_ (shared s)) = Z.to_nat N /\
  write_pointer (rpwp_ (shared s)) = writes_done s mod N /\
  read_pointer (rpwp_ (shared s)) = reads_done s mod N /\
  0 <= reads_done s <= writes_done s /\
  writes_done s <= reads_done s + (N - 1) /\
  (forall j : nat,
     reads_done s <= Z.of_nat j < writes_done s ->
     elements_ (shared s) !! Z.to_nat (Z.of_nat j mod N) = committed s !! j) /\
  consumed s = take (length (consumed s)) (committed s) /\
  Z.of_nat (length (consumed s)) <= writes_done s /\
  producer_inv s /\
  consumer_inv s.

(** ** Concrete states of [buffer4]

    A run in which the producer has committed the value 7 and the consumer
    has read it back and not yet released its reservation. *)
Definition example_init : list Z := [0; 0; 0; 0].

Definition example_state : system Z :=
  {| shared := {| rpwp_ := 0x80000001; elements_ := [7; 0; 0; 0] |};
     producer := P_idle;
     consumer := C_loaded 0 true 7;
     committed := [7];
     consumed := [7] |}.

(** The buffer after three committed writes of 1, 2, 3: full. *)
Definition example_full : buffer Z :=
  {| rpwp_ := 3; elements_ := [1; 2; 3; 0] |}.

(** ** The buffer as a queue

    [holds b q]: the slots from the read cursor up to the write cursor of
    [b], in ring order, are the values [q], oldest first. *)
Definition holds {cfg : instantiation} {T : Type}
    (b : buffer T) (q : list T) : Prop :=
  well_formed (rpwp_ b) /\
  length (elements_ b) = Z.to_nat N /\
  Z.of_nat (length q) = count (rpwp_ b) /\
  forall j : nat, (j < length q)%nat ->
    elements_ b !! Z.to_nat ((read_pointer (rpwp_ b) + Z.of_nat j) mod N) =
    q !! j.

(** Calls of one caller: a write cycle, a read cycle or [try_clear]. *)
Inductive call (T : Type) : Type :=
| call_write (min_free : Z) (commit : bool) (v : T)
| call_read (min_remains : Z) (commit : bool)
| call_try_clear.
Arguments call_write {T} _ _ _.
Arguments call_read {T} _ _.
Arguments call_try_clear {T}.

(** What a call reports: failure, success, or the value read. *)
Inductive report (T : Type) : Type :=
| failed
| succeeded
| value (v : T).
Arguments failed {T}.
Arguments succeeded {T}.
Arguments value {T} _.

(** A call on the buffer.  A cycle whose lock fails is given up. *)
Definition perform {cfg : instantiation} {T : Type}
    (c : call T) (b : buffer T) : report T * buffer T :=
  match c with
  | call_write min_free commit v =>
      match write_cycle min_free commit v b with
      | Some b' => (succeeded, b')
      | None => (failed, b)
      end
  | call_read min_remains commit =>
      match read_cycle min_remains commit b with
      | Some (v, b') => (value v, b')
      | None => (failed, b)
      end
  | call_try_clear =>
      match try_clear (rpwp_ b) with
      | (true, rpwp') =>
          (succeeded, {| rpwp_ := rpwp'; elements_ := elements_ b |})
      | (false, _) => (failed, b)
      end
  end.

Fixpoint perform_all {cfg : instantiation} {T : Type}
    (cs : list (call T)) (b : buffer T) : list (report T) * buffer T :=
  match cs with
  | [] => ([], b)
  | c :: cs' =>
      let (r, b') := perform c b in
      let (rs, b'') := perform_all cs' b' in
      (r :: rs, b'')
  end.

(** The same calls on a list used as a queue of at most [N - 1] values. *)
Definition queue_call {cfg : instantiation} {T : Type}
    (c : call T) (q : list T) : report T * list T :=
  match c with
  | call_write min_free commit v =>
      if min_free <? (N - 1) - Z.of_nat (length q)
      then (succeeded, if commit then q ++ [v] else q)
      else (failed, q)
  | call_read min_remains commit =>
      match q with
      | v :: q' =>
          if min_remains <? Z.of_nat (length q)
          then (value v, if commit then q' else q)
          else (failed, q)
      | [] => (failed, q)
      end
  | call_try_clear => (succeeded, [])
  end.

Fixpoint queue_all {cfg : instantiation} {T : Type}
    (cs : list (call T)) (q : list T) : list (report T) * list T :=
  match cs with
  | [] => ([], q)
  | c :: cs' =>
      let (r, q') := queue_call c q in
      let (rs, q'') := queue_all cs' q' in
      (r :: rs, q'')
  end.

(** The argument [min_free] or [min_remains] of a call is a [size_t]. *)
Definition call_args_ok {T : Type} (c : call T) : Prop :=
  match c with
  | call_write min_free _ _ => 0 <= min_free
  | call_read min_remains _ => 0 <= min_remains
  | call_try_clear => True
  end.

(** The index a thread has reserved, if it holds a reservation. *)
Definition producer_index {T : Type} (p : producer_state T) : option Z :=
  match p with
  | P_locked index | P_stored index _ _ | P_unlock_write index _ _ _ =>
      Some index
  | P_idle | P_lock_write _ _ => None
  end.

Definition consumer_index {T : Type} (c : consumer_state T) : option Z :=
  match c with
  | C_locked index | C_loaded index _ _ | C_unlock_read index _ _ _ =>
      Some index
  | C_idle | C_lock_read _ _ => None
  end.

(** ** A wrapped state of [buffer4]

    Read cursor 3, write cursor 1: the queue 10, 20 lies in slots 3 and 0.
    [example_appended] is the buffer after a committed write of 30 and
    [example_popped] the buffer after a committed read. *)
Definition example_wrapped : buffer Z :=
  {| rpwp_ := 0x00030001; elements_ := [20; 0; 0; 10] |}.

Definition example_appended : buffer Z :=
  {| rpwp_ := 0x00030002; elements_ := [20; 30; 0; 10] |}.

Definition example_popped : buffer Z :=
  {| rpwp_ := 0x00000001; elements_ := [20; 0; 0; 10] |}.

Definition example_calls : list (call Z) :=
  [call_write 0 true 30; call_read 0 true; call_read 0 true;
   call_read 0 true; call_read 0 true].

(** ** A contended state of [buffer4]

    The producer has committed 7, reserved slot 1 again, stored 8 and is
    in the loop of [unlock_write]; the consumer has reserved slot 0 and
    has not loaded it yet. *)
Definition example_contended : system Z :=
  {| shared := {| rpwp_ := 0x80008001; elements_ := [7; 8; 0; 0] |};
     producer := P_unlock_write 1 true 8 0x80008001;
     consumer := C_locked 0;
     committed := [7];
     consumed := [] |}.

(** ** Bit-level description of the state word *)

Section Bits.

Local Ltac cases :=
  repeat match goal with
  | |- context [Z.ltb ?a ?b] => destruct (Z.ltb_spec a b)
  | |- context [Z.leb ?a ?b] => destruct (Z.leb_spec a b)
  | |- context [Z.eqb ?a ?b] => destruct (Z.eqb_spec a b)
  end.

Lemma mask_wp_bits i :
  0 <= i -> Z.testbit WRITE_POINTER_MASK i = (i <? 15).
Proof.
  intros Hi. change WRITE_POINTER_MASK with (Z.ones 15).
  now rewrite Z.testbit_ones_nonneg by lia.
Qed.

Lemma mask_wl_bits i : Z.testbit WRITE_LOCK_BIT_MASK i = (i =? 15).
Proof.
  change WRITE_LOCK_BIT_MASK with (2 ^ 15).
  rewrite Z.pow2_bits_eqb by lia. apply Z.eqb_sym.
Qed.

Lemma mask_rp_bits i :
  0 <= i -> Z.testbit READ_POINTER_MASK i = (16 <=? i) && (i <? 31).
Proof.
  intros Hi. change READ_POINTER_MASK with (Z.shiftl (Z.ones 15) 16).
  rewrite Z.shiftl_spec by lia.
  rewrite Z.testbit_ones by lia. cases; simpl; lia.
Qed.

Lemma mask_rl_bits i : Z.testbit READ_LOCK_BIT_MASK i = (i =? 31).
Proof.
  change READ_LOCK_BIT_MASK with (2 ^ 31).
  rewrite Z.pow2_bits_eqb by lia. apply Z.eqb_sym.
Qed.

Lemma not32_bits m i :
  0 <= i -> Z.testbit (not32 m) i = (i <? 32) && negb (Z.testbit m i).
Proof.
  intros Hi. unfold not32, u32.
  rewrite Z.testbit_mod_pow2 by lia. now rewrite Z.lnot_spec by lia.
Qed.

Lemma u16_bits z i : Z.testbit (u16 z) i = (i <? 16) && Z.testbit z i.
Proof. unfold u16. now rewrite Z.testbit_mod_pow2 by lia. Qed.

Lemma u32_bits z i : Z.testbit (u32 z) i = (i <? 32) && Z.testbit z i.
Proof. unfold u32. now rewrite Z.testbit_mod_pow2 by lia. Qed.

Lemma write_pointer_bits x i :
  0 <= i -> Z.testbit (write_pointer x) i = (i <? 15) && Z.testbit x i.
Proof.
  intros Hi. unfold write_pointer.
  rewrite u16_bits, Z.shiftr_spec, Z.land_spec, mask_wp_bits by lia.
  replace (i + 0) with i by lia.
  cases; try lia; simpl; rewrite ?andb_true_r, ?andb_false_r; reflexivity.
Qed.

Lemma read_pointer_bits x i :
  0 <= i -> Z.testbit (read_pointer x) i = (i <? 15) && Z.testbit x (i + 16).
Proof.
  intros Hi. unfold read_pointer.
  rewrite u16_bits, Z.shiftr_spec, Z.land_spec, mask_rp_bits by lia.
  cases; try lia; simpl; rewrite ?andb_true_r, ?andb_false_r; reflexivity.
Qed.

Lemma land_pow2_eqb x n :
  0 <= n -> negb (Z.land x (2 ^ n) =? 0) = Z.testbit x n.
Proof.
  intros Hn. destruct (Z.testbit x n) eqn:E.
  - apply negb_true_iff, Z.eqb_neq. intros H0.
    assert (Z.testbit (Z.land x (2 ^ n)) n = true) as Hb
      by (rewrite Z.land_spec, E, Z.pow2_bits_true by lia; reflexivity).
    rewrite H0, Z.bits_0 in Hb. discriminate.
  - apply negb_false_iff, Z.eqb_eq, Z.bits_inj'. intros i Hi.
    rewrite Z.land_spec, Z.bits_0, Z.pow2_bits_eqb by lia.
    destruct (Z.eqb_spec n i); subst; rewrite ?E, ?andb_false_r; reflexivity.
Qed.

Lemma is_write_locked_bit x : is_write_locked x = Z.testbit x 15.
Proof. apply (land_pow2_eqb x 15). lia. Qed.

Lemma is_read_locked_bit x : is_read_locked x = Z.testbit x 31.
Proof. apply (land_pow2_eqb x 31). lia. Qed.

Lemma mod_write_locked_bits x b i :
  0 <= i ->
  Z.testbit (mod_write_locked x b) i =
  if i =? 15 then b else (b || (i <? 32)) && Z.testbit x i.
Proof.
  intros Hi. unfold mod_write_locked. destruct b.
  - rewrite Z.lor_spec, mask_wl_bits. cases; simpl; now rewrite ?orb_true_r, ?orb_false_r.
  - rewrite Z.land_spec, not32_bits, mask_wl_bits by lia.
    cases; simpl; now rewrite ?andb_true_r, ?andb_false_r.
Qed.

Lemma mod_read_locked_bits x b i :
  0 <= i ->
  Z.testbit (mod_read_locked x b) i =
  if i =? 31 then b else (b || (i <? 32)) && Z.testbit x i.
Proof.
  intros Hi. unfold mod_read_locked. destruct b.
  - rewrite Z.lor_spec, mask_rl_bits. cases; simpl; now rewrite ?orb_true_r, ?orb_false_r.
  - rewrite Z.land_spec, not32_bits, mask_rl_bits by lia.
    cases; simpl; now rewrite ?andb_true_r, ?andb_false_r.
Qed.

Lemma mod_write_pointer_bits x wp i :
  0 <= i ->
  Z.testbit (mod_write_pointer x wp) i =
  (i <? 32) && (((15 <=? i) && Z.testbit x i) || Z.testbit wp i).
Proof.
  intros Hi. unfold mod_write_pointer.
  rewrite Z.lor_spec, Z.land_spec, not32_bits, mask_wp_bits, u32_bits,
    Z.shiftl_spec by lia.
  replace (i - 0) with i by lia.
  cases; try lia; simpl; rewrite ?andb_true_r, ?andb_false_r; reflexivity.
Qed.

Lemma mod_read_pointer_bits x rp i :
  0 <= i ->
  Z.testbit (mod_read_pointer x rp) i =
  (i <? 32) &&
  ((((i <? 16) || (i =? 31)) && Z.testbit x i) || Z.testbit rp (i - 16)).
Proof.
  intros Hi. unfold mod_read_pointer.
  rewrite Z.lor_spec, Z.land_spec, not32_bits, mask_rp_bits, u32_bits,
    Z.shiftl_spec by lia.
  cases; try lia; simpl; rewrite ?andb_true_r, ?andb_false_r; reflexivity.
Qed.

End Bits.

(** ** The four fields of the state word *)


Section Fields.

Local Ltac cases :=
  repeat match goal with
  | |- context [Z.ltb ?a ?b] => destruct (Z.ltb_spec a b)
  | |- context [Z.leb ?a ?b] => destruct (Z.leb_spec a b)
  | |- context [Z.eqb ?a ?b] => destruct (Z.eqb_spec a b)
  end.

Local Ltac bitwise :=
  apply Z.bits_inj'; intros ?i ?Hi;
  repeat (rewrite ?u32_bits, ?u16_bits, ?write_pointer_bits,
    ?read_pointer_bits by lia;
    progress rewrite ?mod_write_locked_bits, ?mod_read_locked_bits,
      ?mod_write_pointer_bits, ?mod_read_pointer_bits by lia);
  rewrite ?u32_bits, ?u16_bits, ?write_pointer_bits, ?read_pointer_bits
    by lia.

Lemma bits_above v n i : 0 <= v < 2 ^ n -> n <= i -> Z.testbit v i = false.
Proof.
  intros Hv Hi. destruct (Z.eq_dec v 0) as [->|Hne]; [apply Z.bits_0|].
  assert (0 <= n) by (destruct (Z.le_gt_cases 0 n); [assumption|];
    rewrite Z.pow_neg_r in Hv by lia; lia).
  apply Z.bits_above_log2; [lia|].
  apply Z.lt_le_trans with n; [|assumption].
  apply Z.log2_lt_pow2; lia.
Qed.

Lemma uint32_u32 x : uint32 x <-> u32 x = x.
Proof.
  unfold uint32, u32. split.
  - intros H. now apply Z.mod_small.
  - intros <-. apply Z.mod_pos_bound. lia.
Qed.

Lemma write_pointer_mod x : write_pointer x = x mod 2 ^ 15.
Proof.
  bitwise. rewrite Z.testbit_mod_pow2 by lia. reflexivity.
Qed.

Lemma read_pointer_div x : read_pointer x = (x / 2 ^ 16) mod 2 ^ 15.
Proof.
  bitwise. rewrite Z.testbit_mod_pow2, Z.div_pow2_bits by lia. reflexivity.
Qed.

Lemma write_pointer_range x : uint15 (write_pointer x).
Proof. rewrite write_pointer_mod. apply Z.mod_pos_bound. lia. Qed.

Lemma read_pointer_range x : uint15 (read_pointer x).
Proof. rewrite read_pointer_div. apply Z.mod_pos_bound. lia. Qed.

(** A 32-bit word is determined by its four fields. *)
Lemma fields_inj x y :
  uint32 x -> uint32 y ->
  write_pointer x = write_pointer y ->
  is_write_locked x = is_write_locked y ->
  read_pointer x = read_pointer y ->
  is_read_locked x = is_read_locked y ->
  x = y.
Proof.
  intros Hx Hy Hwp Hwl Hrp Hrl.
  rewrite !is_write_locked_bit in Hwl. rewrite !is_read_locked_bit in Hrl.
  apply Z.bits_inj'. intros i Hi.
  destruct (Z.lt_ge_cases i 15) as [H15|H15].
  - apply (f_equal (fun v => Z.testbit v i)) in Hwp.
    rewrite !write_pointer_bits in Hwp by lia.
    destruct (Z.ltb_spec i 15); [exact Hwp | lia].
  - destruct (Z.eq_dec i 15) as [->|Hn15]; [exact Hwl|].
    destruct (Z.lt_ge_cases i 31) as [H31|H31].
    + apply (f_equal (fun v => Z.testbit v (i - 16))) in Hrp.
      rewrite !read_pointer_bits in Hrp by lia.
      replace (i - 16 + 16) with i in Hrp by lia.
      destruct (Z.ltb_spec (i - 16) 15); [exact Hrp | lia].
    + destruct (Z.eq_dec i 31) as [->|Hn31]; [exact Hrl|].
      rewrite (bits_above x 32), (bits_above y 32) by (assumption || lia).
      reflexivity.
Qed.

(** *** Setters keep the word inside 32 bits *)

Lemma mod_write_locked_uint32 x b : uint32 x -> uint32 (mod_write_locked x b).
Proof.
  intros Hx. apply uint32_u32. bitwise.
  cases; try lia; simpl; rewrite ?andb_true_r; try reflexivity.
  rewrite (bits_above x 32) by (assumption || lia). now rewrite andb_false_r.
Qed.

Lemma mod_read_locked_uint32 x b : uint32 x -> uint32 (mod_read_locked x b).
Proof.
  intros Hx. apply uint32_u32. bitwise.
  cases; try lia; simpl; rewrite ?andb_true_r; try reflexivity.
  rewrite (bits_above x 32) by (assumption || lia). now rewrite andb_false_r.
Qed.

Lemma mod_write_pointer_uint32 x wp : uint32 (mod_write_pointer x wp).
Proof. apply uint32_u32. bitwise. now rewrite andb_assoc, andb_diag. Qed.

Lemma mod_read_pointer_uint32 x rp : uint32 (mod_read_pointer x rp).
Proof. apply uint32_u32. bitwise. now rewrite andb_assoc, andb_diag. Qed.

(** *** Reading a field after a setter *)

Lemma write_pointer_mod_write_locked x b :
  write_pointer (mod_write_locked x b) = write_pointer x.
Proof. bitwise. cases; try lia; simpl; now rewrite ?orb_true_r. Qed.

Lemma read_pointer_mod_write_locked x b :
  read_pointer (mod_write_locked x b) = read_pointer x.
Proof. bitwise. cases; try lia; simpl; now rewrite ?orb_true_r. Qed.

Lemma is_write_locked_mod_write_locked x b :
  is_write_locked (mod_write_locked x b) = b.
Proof. rewrite is_write_locked_bit, mod_write_locked_bits by lia. reflexivity. Qed.

Lemma is_read_locked_mod_write_locked x b :
  is_read_locked (mod_write_locked x b) = is_read_locked x.
Proof.
  rewrite !is_read_locked_bit, mod_write_locked_bits by lia.
  simpl. now rewrite orb_true_r.
Qed.

Lemma write_pointer_mod_read_locked x b :
  write_pointer (mod_read_locked x b) = write_pointer x.
Proof. bitwise. cases; try lia; simpl; now rewrite ?orb_true_r. Qed.

Lemma read_pointer_mod_read_locked x b :
  read_pointer (mod_read_locked x b) = read_pointer x.
Proof. bitwise. cases; try lia; simpl; now rewrite ?orb_true_r. Qed.

Lemma is_write_locked_mod_read_locked x b :
  is_write_locked (mod_read_locked x b) = is_write_locked x.
Proof.
  rewrite !is_write_locked_bit, mod_read_locked_bits by lia.
  simpl. now rewrite orb_true_r.
Qed.

Lemma is_read_locked_mod_read_locked x b :
  is_read_locked (mod_read_locked x b) = b.
Proof. rewrite is_read_locked_bit, mod_read_locked_bits by lia. reflexivity. Qed.

Lemma write_pointer_mod_write_pointer x wp :
  uint15 wp -> write_pointer (mod_write_pointer x wp) = wp.
Proof.
  intros Hwp. bitwise. cases; try lia; simpl; try reflexivity;
    symmetry; apply (bits_above wp 15); (assumption || lia).
Qed.

Lemma is_write_locked_mod_write_pointer x wp :
  uint15 wp -> is_write_locked (mod_write_pointer x wp) = is_write_locked x.
Proof.
  intros Hwp. rewrite !is_write_locked_bit, mod_write_pointer_bits by lia.
  rewrite (bits_above wp 15) by (assumption || lia). simpl.
  now rewrite orb_false_r.
Qed.

Lemma read_pointer_mod_write_pointer x wp :
  uint15 wp -> read_pointer (mod_write_pointer x wp) = read_pointer x.
Proof.
  intros Hwp. bitwise.
  rewrite (bits_above wp 15 (i + 16)) by (assumption || lia).
  cases; try lia; simpl; now rewrite ?orb_false_r.
Qed.

Lemma is_read_locked_mod_write_pointer x wp :
  uint15 wp -> is_read_locked (mod_write_pointer x wp) = is_read_locked x.
Proof.
  intros Hwp. rewrite !is_read_locked_bit, mod_write_pointer_bits by lia.
  rewrite (bits_above wp 15) by (assumption || lia). simpl.
  now rewrite orb_false_r.
Qed.

Lemma write_pointer_mod_read_pointer x rp :
  write_pointer (mod_read_pointer x rp) = write_pointer x.
Proof.
  bitwise. cases; try lia; simpl; try reflexivity;
    rewrite (Z.testbit_neg_r rp) by lia; now rewrite orb_false_r.
Qed.

Lemma is_write_locked_mod_read_pointer x rp :
  is_write_locked (mod_read_pointer x rp) = is_write_locked x.
Proof.
  rewrite !is_write_locked_bit, mod_read_pointer_bits by lia. simpl.
  now rewrite orb_false_r.
Qed.

Lemma read_pointer_mod_read_pointer x rp :
  uint15 rp -> read_pointer (mod_read_pointer x rp) = rp.
Proof.
  intros Hrp. bitwise. replace (i + 16 - 16) with i by lia.
  cases; try lia; simpl; try reflexivity;
    symmetry; apply (bits_above rp 15); (assumption || lia).
Qed.

Lemma is_read_locked_mod_read_pointer x rp :
  uint15 rp -> is_read_locked (mod_read_pointer x rp) = is_read_locked x.
Proof.
  intros Hrp. rewrite !is_read_locked_bit, mod_read_pointer_bits by lia.
  rewrite (bits_above rp 15) by (assumption || lia). simpl.
  now rewrite orb_false_r.
Qed.

End Fields.

(** ** Arithmetic of a valid instantiation *)

Section Arithmetic.

Context {cfg : instantiation} (cfg_ok : instantiable = true).

Lemma N_range : 2 <= N <= 32768.
Proof.
  unfold instantiable, static_assert_N in cfg_ok.
  apply andb_true_iff in cfg_ok as [H _].
  apply andb_true_iff in H as [H _].
  apply andb_true_iff in H as [H1 H2]. lia.
Qed.

Lemma N_land : Z.land N (N - 1) = 0.
Proof.
  unfold instantiable, static_assert_N in cfg_ok.
  apply andb_true_iff in cfg_ok as [H _].
  apply andb_true_iff in H as [_ H]. lia.
Qed.

Lemma size_bits_range : 32 <= size_bits.
Proof.
  unfold instantiable in cfg_ok.
  apply andb_true_iff in cfg_ok as [_ H]. lia.
Qed.

(** [(N & (N - 1)) == 0] makes [N] a power of two. *)
Lemma N_pow2 : exists k, 1 <= k <= 15 /\ N = 2 ^ k.
Proof.
  pose proof N_range as HN. pose proof N_land as HL.
  set (k := Z.log2 N).
  assert (Hk : 2 ^ k <= N < 2 ^ Z.succ k) by (apply Z.log2_spec; lia).
  assert (Hk0 : 0 <= k) by apply Z.log2_nonneg.
  assert (HNk : N = 2 ^ k).
  { destruct (Z.eq_dec N (2 ^ k)) as [|Hne]; [assumption|exfalso].
    assert (Hbit : Z.testbit N k = true) by (apply Z.bit_log2; lia).
    assert (Hlog : Z.log2 (N - 1) = k)
      by (apply Z.log2_unique; [assumption | lia]).
    assert (Hbit' : Z.testbit (N - 1) k = true)
      by (rewrite <- Hlog; apply Z.bit_log2; lia).
    assert (Hc : Z.testbit (Z.land N (N - 1)) k = true)
      by (rewrite Z.land_spec, Hbit, Hbit'; reflexivity).
    rewrite HL, Z.bits_0 in Hc. discriminate. }
  exists k. split; [|assumption].
  split.
  - destruct (Z.eq_dec k 0) as [Hz|]; [|lia].
    rewrite Hz in HNk. simpl in HNk. lia.
  - destruct (Z.le_gt_cases k 15) as [|Hgt]; [assumption|exfalso].
    assert (2 ^ 16 <= 2 ^ k) by (apply Z.pow_le_mono_r; lia). lia.
Qed.

Lemma usize_small z : 0 <= z < 2 ^ 32 -> usize z = z.
Proof.
  intros Hz. unfold usize. apply Z.mod_small.
  pose proof size_bits_range.
  assert (2 ^ 32 <= 2 ^ size_bits) by (apply Z.pow_le_mono_r; lia). lia.
Qed.

Lemma next_pointer_spec x :
  0 <= x < 2 ^ 16 -> next_pointer x = (x + 1) mod N.
Proof.
  intros Hx. pose proof N_range as HN. unfold next_pointer, u32, u16.
  rewrite (Z.mod_small (x + 1)) by lia.
  rewrite usize_small by lia.
  apply Z.mod_small.
  pose proof (Z.mod_pos_bound (x + 1) N). lia.
Qed.

Lemma next_pointer_range x : 0 <= x < 2 ^ 16 -> 0 <= next_pointer x < N.
Proof.
  intros Hx. rewrite next_pointer_spec by assumption.
  apply Z.mod_pos_bound. pose proof N_range. lia.
Qed.

Lemma next_pointer_uint15 x : 0 <= x < 2 ^ 16 -> uint15 (next_pointer x).
Proof.
  intros Hx. pose proof (next_pointer_range x Hx). pose proof N_range.
  unfold uint15. lia.
Qed.

Lemma pointer_uint16 p : uint15 p -> 0 <= p < 2 ^ 16.
Proof. unfold uint15. lia. Qed.

(** [count] on a word whose cursors are below [N]. *)
Lemma count_spec x :
  write_pointer x < N -> read_pointer x < N ->
  count x = (write_pointer x - read_pointer x) mod N.
Proof.
  intros Hw Hr. pose proof N_range as HN.
  pose proof (write_pointer_range x) as [Hw0 _].
  pose proof (read_pointer_range x) as [Hr0 _].
  unfold count. destruct (Z.leb_spec (read_pointer x) (write_pointer x)).
  - rewrite usize_small by lia. symmetry. apply Z.mod_small. lia.
  - rewrite (usize_small (N - read_pointer x)) by lia.
    rewrite usize_small by lia.
    apply Z.mod_unique with (-1); lia.
Qed.

Lemma count_range x :
  write_pointer x < N -> read_pointer x < N -> 0 <= count x <= N - 1.
Proof.
  intros Hw Hr. rewrite count_spec by assumption.
  pose proof N_range.
  pose proof (Z.mod_pos_bound (write_pointer x - read_pointer x) N). lia.
Qed.

Lemma count_nonneg x : 0 <= count x.
Proof.
  unfold count, usize. pose proof size_bits_range.
  destruct (_ <=? _); apply Z.mod_pos_bound; apply Z.pow_pos_nonneg; lia.
Qed.

Lemma free_count_small x : count x <= N - 1 -> free_count x = N - 1 - count x.
Proof.
  intros Hc. pose proof N_range. pose proof (count_nonneg x).
  unfold free_count. apply usize_small. lia.
Qed.

Lemma capacity_spec : capacity = N - 1.
Proof. pose proof N_range. apply usize_small. lia. Qed.

Lemma INVALID_INDEX_value : INVALID_INDEX = 65535.
Proof. reflexivity. Qed.

End Arithmetic.

(** ** The loop bodies, field by field *)

Section Operations.

Context {cfg : instantiation} (cfg_ok : instantiable = true).

Lemma lock_write_body_Some min_free w d :
  lock_write_body min_free w = Some d <->
  is_write_locked w = false /\ min_free < free_count w /\
  d = mod_write_locked w true.
Proof.
  unfold lock_write_body.
  destruct (is_write_locked w); [intuition discriminate|].
  destruct (Z.ltb_spec min_free (free_count w)); simpl; split.
  - intros [= <-]. auto.
  - intros (_ & _ & ->). reflexivity.
  - discriminate.
  - intros (_ & ? & _). lia.
Qed.

Lemma lock_read_body_Some min_remains w d :
  lock_read_body min_remains w = Some d <->
  is_read_locked w = false /\ min_remains < count w /\
  d = mod_read_locked w true.
Proof.
  unfold lock_read_body.
  destruct (is_read_locked w); [intuition discriminate|].
  destruct (Z.ltb_spec min_remains (count w)); simpl; split.
  - intros [= <-]. auto.
  - intros (_ & _ & ->). reflexivity.
  - discriminate.
  - intros (_ & ? & _). lia.
Qed.

Lemma unlock_write_body_Some index commit w d :
  unlock_write_body index commit w = Some d <->
  index = write_pointer w /\ is_write_locked w = true /\
  d = mod_write_locked
        (if commit then mod_write_pointer w (next_pointer (write_pointer w))
         else w) false.
Proof.
  unfold unlock_write_body.
  destruct (Z.eqb_spec index (write_pointer w)); simpl;
    [|intuition (discriminate || contradiction)].
  destruct (is_write_locked w); simpl; [|intuition discriminate].
  split.
  - intros [= <-]. auto.
  - intros (_ & _ & ->). reflexivity.
Qed.

Lemma unlock_read_body_Some index commit w d :
  unlock_read_body index commit w = Some d <->
  index = read_pointer w /\ is_read_locked w = true /\
  d = mod_read_locked
        (if commit then mod_read_pointer w (next_pointer (read_pointer w))
         else w) false.
Proof.
  unfold unlock_read_body.
  destruct (Z.eqb_spec index (read_pointer w)); simpl;
    [|intuition (discriminate || contradiction)].
  destruct (is_read_locked w); simpl; [|intuition discriminate].
  split.
  - intros [= <-]. auto.
  - intros (_ & _ & ->). reflexivity.
Qed.

Lemma try_clear_body_Some w d :
  try_clear_body w = Some d <->
  is_write_locked w = false /\ is_read_locked w = false /\
  d = mod_read_pointer w (write_pointer w).
Proof.
  unfold try_clear_body.
  destruct (is_write_locked w), (is_read_locked w); simpl;
    try (intuition discriminate).
  split.
  - intros [= <-]. auto.
  - intros (_ & _ & ->). reflexivity.
Qed.

(** The cursor a commit installs. *)
Lemma next_write_pointer_uint15 w : uint15 (next_pointer (write_pointer w)).
Proof.
  apply (next_pointer_uint15 cfg_ok), pointer_uint16, write_pointer_range.
Qed.

Lemma next_read_pointer_uint15 w : uint15 (next_pointer (read_pointer w)).
Proof.
  apply (next_pointer_uint15 cfg_ok), pointer_uint16, read_pointer_range.
Qed.

(** *** Fields of the word an unlock installs *)

Lemma unlock_write_fields w (commit : bool) :
  let d := mod_write_locked
             (if commit then mod_write_pointer w (next_pointer (write_pointer w))
              else w) false in
  write_pointer d =
    (if commit then next_pointer (write_pointer w) else write_pointer w) /\
  is_write_locked d = false /\
  read_pointer d = read_pointer w /\
  is_read_locked d = is_read_locked w.
Proof.
  pose proof (next_write_pointer_uint15 w) as Hn.
  cbv zeta.
  rewrite write_pointer_mod_write_locked, is_write_locked_mod_write_locked,
    read_pointer_mod_write_locked, is_read_locked_mod_write_locked.
  destruct commit.
  - rewrite write_pointer_mod_write_pointer, read_pointer_mod_write_pointer,
      is_read_locked_mod_write_pointer by assumption. auto.
  - auto.
Qed.

Lemma unlock_read_fields w (commit : bool) :
  let d := mod_read_locked
             (if commit then mod_read_pointer w (next_pointer (read_pointer w))
              else w) false in
  read_pointer d =
    (if commit then next_pointer (read_pointer w) else read_pointer w) /\
  is_read_locked d = false /\
  write_pointer d = write_pointer w /\
  is_write_locked d = is_write_locked w.
Proof.
  pose proof (next_read_pointer_uint15 w) as Hn.
  cbv zeta.
  rewrite read_pointer_mod_read_locked, is_read_locked_mod_read_locked,
    write_pointer_mod_read_locked, is_write_locked_mod_read_locked.
  destruct commit.
  - rewrite read_pointer_mod_read_pointer, write_pointer_mod_read_pointer,
      is_write_locked_mod_read_pointer by assumption. auto.
  - auto.
Qed.

Lemma try_clear_fields w :
  let d := mod_read_pointer w (write_pointer w) in
  read_pointer d = write_pointer w /\
  write_pointer d = write_pointer w /\
  is_write_locked d = is_write_locked w /\
  is_read_locked d = is_read_locked w.
Proof.
  pose proof (write_pointer_range w) as Hw. cbv zeta.
  rewrite read_pointer_mod_read_pointer, write_pointer_mod_read_pointer,
    is_write_locked_mod_read_pointer, is_read_locked_mod_read_pointer
    by assumption.
  auto.
Qed.

(** *** The operations in terms of their bodies *)

Lemma lock_write_unfold w min_free :
  lock_write w min_free =
  match lock_write_body min_free w with
  | Some d => ((true, write_pointer d), d)
  | None => ((false, INVALID_INDEX), w)
  end.
Proof. unfold lock_write, cas_loop. now destruct (lock_write_body _ _). Qed.

Lemma lock_read_unfold w min_remains :
  lock_read w min_remains =
  match lock_read_body min_remains w with
  | Some d => ((true, read_pointer d), d)
  | None => ((false, INVALID_INDEX), w)
  end.
Proof. unfold lock_read, cas_loop. now destruct (lock_read_body _ _). Qed.

Lemma unlock_write_unfold w index commit :
  unlock_write w index commit =
  match unlock_write_body index commit w with
  | Some d => (true, d)
  | None => (false, w)
  end.
Proof. unfold unlock_write, cas_loop. now destruct (unlock_write_body _ _ _). Qed.

Lemma unlock_read_unfold w index commit :
  unlock_read w index commit =
  match unlock_read_body index commit w with
  | Some d => (true, d)
  | None => (false, w)
  end.
Proof. unfold unlock_read, cas_loop. now destruct (unlock_read_body _ _ _). Qed.

Lemma try_clear_unfold w :
  try_clear w =
  match try_clear_body w with
  | Some d => (true, d)
  | None => (false, w)
  end.
Proof. unfold try_clear, cas_loop. now destruct (try_clear_body _). Qed.

Lemma clear_Some fuel w w' :
  clear fuel w = Some w' -> try_clear w = (true, w').
Proof.
  revert w. induction fuel as [|fuel IH]; intros w; simpl; [discriminate|].
  rewrite try_clear_unfold.
  destruct (try_clear_body w) as [d|] eqn:E.
  - intros [= <-]. reflexivity.
  - intros H. apply IH in H. rewrite try_clear_unfold, E in H. discriminate.
Qed.


(** *** The loop and its one-pass summary *)

Lemma compare_exchange_weak_true spurious rpwp expected desired rpwp' expected' :
  compare_exchange_weak spurious rpwp expected desired = (true, rpwp', expected') ->
  rpwp = expected /\ rpwp' = desired.
Proof.
  unfold compare_exchange_weak.
  destruct (Z.eqb_spec rpwp expected), spurious; simpl; intros [= <- <-]; auto.
Qed.

Lemma compare_exchange_weak_false spurious rpwp expected desired rpwp' expected' :
  compare_exchange_weak spurious rpwp expected desired = (false, rpwp', expected') ->
  rpwp' = rpwp /\ expected' = rpwp.
Proof.
  unfold compare_exchange_weak.
  destruct (Z.eqb_spec rpwp expected), spurious; simpl; intros [= <- <-]; auto.
Qed.

(** Run by one thread at a time, the loop returns what [cas_loop] returns
    as soon as one compare-and-swap does not fail spuriously. *)
Lemma cas_loop_weak_sequential body attempts rpwp :
  In false attempts ->
  cas_loop_weak body attempts rpwp rpwp = Some (cas_loop body rpwp).
Proof.
  intros Hin. unfold cas_loop. destruct (body rpwp) as [desired|] eqn:Hb.
  - induction attempts as [|spurious attempts IH]; [destruct Hin|].
    simpl. rewrite Hb. unfold compare_exchange_weak. rewrite Z.eqb_refl.
    destruct spurious; simpl; [|reflexivity].
    destruct Hin as [Heq|Hin]; [discriminate|]. exact (IH Hin).
  - destruct attempts; simpl; rewrite Hb; reflexivity.
Qed.

(** A loop that ends by [break] has stored nothing, however many of its
    compare-and-swaps failed before. *)
Lemma cas_loop_weak_break body attempts : forall rpwp expected rpwp',
  cas_loop_weak body attempts rpwp expected = Some (None, rpwp') ->
  rpwp' = rpwp.
Proof.
  induction attempts as [|spurious attempts IH]; intros rpwp expected rpwp';
    simpl; destruct (body expected) as [desired|]; try congruence.
  destruct (compare_exchange_weak spurious rpwp expected desired)
    as [[[] w1] e1] eqn:E; [discriminate|].
  apply compare_exchange_weak_false in E as [-> ->]. apply IH.
Qed.

End Operations.

(** ** Every operation keeps the state word well formed *)

Section Invariant.

Context {cfg : instantiation} (cfg_ok : instantiable = true).

Lemma well_formed_0 : well_formed 0.
Proof.
  pose proof (N_range cfg_ok). unfold well_formed, uint32.
  change (write_pointer 0) with 0. change (read_pointer 0) with 0. lia.
Qed.

Lemma lock_write_body_wf min_free w d :
  well_formed w -> lock_write_body min_free w = Some d -> well_formed d.
Proof.
  intros (Hu & Hw & Hr) (_ & _ & ->)%lock_write_body_Some.
  unfold well_formed.
  rewrite write_pointer_mod_write_locked, read_pointer_mod_write_locked.
  auto using mod_write_locked_uint32.
Qed.

Lemma lock_read_body_wf min_remains w d :
  well_formed w -> lock_read_body min_remains w = Some d -> well_formed d.
Proof.
  intros (Hu & Hw & Hr) (_ & _ & ->)%lock_read_body_Some.
  unfold well_formed.
  rewrite write_pointer_mod_read_locked, read_pointer_mod_read_locked.
  auto using mod_read_locked_uint32.
Qed.

Lemma unlock_write_body_wf index commit w d :
  well_formed w -> unlock_write_body index commit w = Some d -> well_formed d.
Proof.
  intros (Hu & Hw & Hr) (_ & _ & ->)%unlock_write_body_Some.
  destruct (unlock_write_fields cfg_ok w commit) as (Hwp & _ & Hrp & _).
  unfold well_formed. rewrite Hwp, Hrp. split; [|split; [|assumption]].
  - apply mod_write_locked_uint32.
    destruct commit; [apply mod_write_pointer_uint32 | assumption].
  - destruct commit; [|assumption].
    apply (next_pointer_range cfg_ok), pointer_uint16, write_pointer_range.
Qed.

Lemma unlock_read_body_wf index commit w d :
  well_formed w -> unlock_read_body index commit w = Some d -> well_formed d.
Proof.
  intros (Hu & Hw & Hr) (_ & _ & ->)%unlock_read_body_Some.
  destruct (unlock_read_fields cfg_ok w commit) as (Hrp & _ & Hwp & _).
  unfold well_formed. rewrite Hwp, Hrp. split; [|split; [assumption|]].
  - apply mod_read_locked_uint32.
    destruct commit; [apply mod_read_pointer_uint32 | assumption].
  - destruct commit; [|assumption].
    apply (next_pointer_range cfg_ok), pointer_uint16, read_pointer_range.
Qed.

Lemma try_clear_body_wf w d :
  well_formed w -> try_clear_body w = Some d -> well_formed d.
Proof.
  intros (Hu & Hw & Hr) (_ & _ & ->)%try_clear_body_Some.
  destruct (try_clear_fields w) as (Hrp & Hwp & _).
  unfold well_formed. rewrite Hwp, Hrp.
  auto using mod_read_pointer_uint32.
Qed.

Lemma reachable_well_formed w : reachable w -> well_formed w.
Proof.
  induction 1 as [|w mf _ IH|w i c _ IH|w mr _ IH|w i c _ IH|w _ IH
                  |w fuel w' _ IH Hc].
  - apply well_formed_0.
  - rewrite lock_write_unfold.
    destruct (lock_write_body mf w) eqn:E; simpl; eauto using lock_write_body_wf.
  - rewrite unlock_write_unfold.
    destruct (unlock_write_body i c w) eqn:E; simpl;
      eauto using unlock_write_body_wf.
  - rewrite lock_read_unfold.
    destruct (lock_read_body mr w) eqn:E; simpl; eauto using lock_read_body_wf.
  - rewrite unlock_read_unfold.
    destruct (unlock_read_body i c w) eqn:E; simpl;
      eauto using unlock_read_body_wf.
  - rewrite try_clear_unfold.
    destruct (try_clear_body w) eqn:E; simpl; eauto using try_clear_body_wf.
  - apply clear_Some in Hc. rewrite try_clear_unfold in Hc.
    destruct (try_clear_body w) eqn:E; [|discriminate].
    injection Hc as <-. eauto using try_clear_body_wf.
Qed.

End Invariant.

(** ** Specification of the five operations on the state word *)

Section Specification.

Context {cfg : instantiation} (cfg_ok : instantiable = true).

(** C2. [lock_write(min_free)] succeeds exactly when the word is not
    write-locked and the free count [(N - 1) - count] exceeds [min_free];
    a success sets the write-lock bit and nothing else and returns the
    write cursor, a failure returns [INVALID_INDEX].  [free_count] is the
    [size_t] expression of the source; it is the integer [(N - 1) - count]
    on every word with [count <= N - 1].  [lock_read(min_remains)] is the
    same on the read side, with [count] in place of the free count. *)
Theorem reservation_spec (rpwp min_free min_remains : Z) :
  ((fst (fst (lock_write rpwp min_free)) = true <->
      is_write_locked rpwp = false /\ min_free < free_count rpwp) /\
   (count rpwp <= N - 1 -> free_count rpwp = (N - 1) - count rpwp) /\
   (fst (fst (lock_write rpwp min_free)) = true ->
      let rpwp' := snd (lock_write rpwp min_free) in
      rpwp' = mod_write_locked rpwp true /\
      is_write_locked rpwp' = true /\
      write_pointer rpwp' = write_pointer rpwp /\
      read_pointer rpwp' = read_pointer rpwp /\
      is_read_locked rpwp' = is_read_locked rpwp /\
      snd (fst (lock_write rpwp min_free)) = write_pointer rpwp) /\
   (fst (fst (lock_write rpwp min_free)) = false ->
      snd (fst (lock_write rpwp min_free)) = INVALID_INDEX)) /\
  ((fst (fst (lock_read rpwp min_remains)) = true <->
      is_read_locked rpwp = false /\ min_remains < count rpwp) /\
   (fst (fst (lock_read rpwp min_remains)) = true ->
      let rpwp' := snd (lock_read rpwp min_remains) in
      rpwp' = mod_read_locked rpwp true /\
      is_read_locked rpwp' = true /\
      read_pointer rpwp' = read_pointer rpwp /\
      write_pointer rpwp' = write_pointer rpwp /\
      is_write_locked rpwp' = is_write_locked rpwp /\
      snd (fst (lock_read rpwp min_remains)) = read_pointer rpwp) /\
   (fst (fst (lock_read rpwp min_remains)) = false ->
      snd (fst (lock_read rpwp min_remains)) = INVALID_INDEX)).
Proof.
  split.
  - rewrite lock_write_unfold.
    destruct (lock_write_body min_free rpwp) as [d|] eqn:E; simpl.
    + apply lock_write_body_Some in E as (Hl & Hf & ->).
      rewrite write_pointer_mod_write_locked, read_pointer_mod_write_locked,
        is_write_locked_mod_write_locked, is_read_locked_mod_write_locked.
      repeat split; auto using free_count_small; discriminate.
    + repeat split; auto using free_count_small; try discriminate.
      intros [Hl Hf].
      assert (lock_write_body min_free rpwp = Some (mod_write_locked rpwp true))
        as E' by (apply lock_write_body_Some; auto).
      congruence.
  - rewrite lock_read_unfold.
    destruct (lock_read_body min_remains rpwp) as [d|] eqn:E; simpl.
    + apply lock_read_body_Some in E as (Hl & Hf & ->).
      rewrite write_pointer_mod_read_locked, read_pointer_mod_read_locked,
        is_write_locked_mod_read_locked, is_read_locked_mod_read_locked.
      repeat split; auto; discriminate.
    + repeat split; auto; try discriminate.
      intros [Hl Hf].
      assert (lock_read_body min_remains rpwp = Some (mod_read_locked rpwp true))
        as E' by (apply lock_read_body_Some; auto).
      congruence.
Qed.

(** C3. [unlock_write(index, commit)] succeeds exactly when [index] is the
    write cursor and the write-lock bit is set.  With [commit] the new word
    has the write cursor at [(index + 1) mod N] and the write lock cleared;
    without, only the write lock is cleared.  The read half is untouched.
    [unlock_read] is the same on the read half. *)
Theorem release_spec (rpwp index : Z) (commit : bool) :
  ((fst (unlock_write rpwp index commit) = true <->
      index = write_pointer rpwp /\ is_write_locked rpwp = true) /\
   (fst (unlock_write rpwp index commit) = true ->
      let rpwp' := snd (unlock_write rpwp index commit) in
      write_pointer rpwp' =
        (if commit then (index + 1) mod N else write_pointer rpwp) /\
      is_write_locked rpwp' = false /\
      read_pointer rpwp' = read_pointer rpwp /\
      is_read_locked rpwp' = is_read_locked rpwp)) /\
  ((fst (unlock_read rpwp index commit) = true <->
      index = read_pointer rpwp /\ is_read_locked rpwp = true) /\
   (fst (unlock_read rpwp index commit) = true ->
      let rpwp' := snd (unlock_read rpwp index commit) in
      read_pointer rpwp' =
        (if commit then (index + 1) mod N else read_pointer rpwp) /\
      is_read_locked rpwp' = false /\
      write_pointer rpwp' = write_pointer rpwp /\
      is_write_locked rpwp' = is_write_locked rpwp)).
Proof.
  split.
  - rewrite unlock_write_unfold.
    destruct (unlock_write_body index commit rpwp) as [d|] eqn:E; simpl.
    + apply unlock_write_body_Some in E as (-> & Hl & ->).
      destruct (unlock_write_fields cfg_ok rpwp commit) as (Hwp & Hwl & Hrp & Hrl).
      repeat split; auto.
      rewrite Hwp. destruct commit; [|reflexivity].
      apply (next_pointer_spec cfg_ok), pointer_uint16, write_pointer_range.
    + split; [|discriminate]. split; [discriminate|].
      intros [Hi Hl].
      assert (unlock_write_body index commit rpwp <> None) as E'
        by (intros E'; pose proof (proj2 (unlock_write_body_Some index commit rpwp _)
              (conj Hi (conj Hl eq_refl))); congruence).
      contradiction.
  - rewrite unlock_read_unfold.
    destruct (unlock_read_body index commit rpwp) as [d|] eqn:E; simpl.
    + apply unlock_read_body_Some in E as (-> & Hl & ->).
      destruct (unlock_read_fields cfg_ok rpwp commit) as (Hrp & Hrl & Hwp & Hwl).
      repeat split; auto.
      rewrite Hrp. destruct commit; [|reflexivity].
      apply (next_pointer_spec cfg_ok), pointer_uint16, read_pointer_range.
    + split; [|discriminate]. split; [discriminate|].
      intros [Hi Hl].
      assert (unlock_read_body index commit rpwp <> None) as E'
        by (intros E'; pose proof (proj2 (unlock_read_body_Some index commit rpwp _)
              (conj Hi (conj Hl eq_refl))); congruence).
      contradiction.
Qed.

(** C4. An operation that returns failure leaves the state word exactly as
    it was: its loop ended by [break], before any compare-and-swap.  The
    same holds of the loop as it is written, whatever the word it last
    observed and however many of its compare-and-swaps failed. *)
Theorem failure_leaves_state (rpwp min_free min_remains index : Z) (commit : bool) :
  (fst (fst (lock_write rpwp min_free)) = false ->
     lock_write_body min_free rpwp = None /\
     snd (lock_write rpwp min_free) = rpwp) /\
  (fst (unlock_write rpwp index commit) = false ->
     unlock_write_body index commit rpwp = None /\
     snd (unlock_write rpwp index commit) = rpwp) /\
  (fst (fst (lock_read rpwp min_remains)) = false ->
     lock_read_body min_remains rpwp = None /\
     snd (lock_read rpwp min_remains) = rpwp) /\
  (fst (unlock_read rpwp index commit) = false ->
     unlock_read_body index commit rpwp = None /\
     snd (unlock_read rpwp index commit) = rpwp) /\
  (fst (try_clear rpwp) = false ->
     try_clear_body rpwp = None /\ snd (try_clear rpwp) = rpwp) /\
  (forall body attempts expected rpwp',
     cas_loop_weak body attempts rpwp expected = Some (None, rpwp') ->
     rpwp' = rpwp).
Proof.
  rewrite lock_write_unfold, unlock_write_unfold, lock_read_unfold,
    unlock_read_unfold, try_clear_unfold.
  destruct (lock_write_body min_free rpwp), (unlock_write_body index commit rpwp),
    (lock_read_body min_remains rpwp), (unlock_read_body index commit rpwp),
    (try_clear_body rpwp); simpl; repeat split; auto;
    try discriminate; intros; eapply cas_loop_weak_break; eassumption.
Qed.

(** C6. [try_clear] fails exactly when one of the locks is held.  A success
    moves the read cursor onto the write cursor and changes nothing else,
    so that [size] is 0 and [empty] holds afterwards. *)
Theorem try_clear_spec (rpwp : Z) :
  (fst (try_clear rpwp) = false <->
     is_write_locked rpwp = true \/ is_read_locked rpwp = true) /\
  (fst (try_clear rpwp) = true ->
     let rpwp' := snd (try_clear rpwp) in
     read_pointer rpwp' = write_pointer rpwp /\
     write_pointer rpwp' = write_pointer rpwp /\
     is_write_locked rpwp' = is_write_locked rpwp /\
     is_read_locked rpwp' = is_read_locked rpwp /\
     size rpwp' = 0 /\
     empty rpwp' = true).
Proof.
  rewrite try_clear_unfold.
  destruct (try_clear_body rpwp) as [d|] eqn:E; simpl.
  - apply try_clear_body_Some in E as (Hw & Hr & ->).
    destruct (try_clear_fields rpwp) as (Hrp & Hwp & Hwl & Hrl).
    split.
    + split; [discriminate|]. intros [H|H]; congruence.
    + intros _. repeat split; auto.
      * unfold size, count. rewrite Hrp, Hwp, Z.leb_refl, Z.sub_diag.
        apply (usize_small cfg_ok). lia.
      * unfold empty. rewrite Hrp, Hwp. apply Z.eqb_refl.
  - split; [|discriminate]. split; [|reflexivity]. intros _.
    destruct (is_write_locked rpwp) eqn:Hw; [auto|].
    destruct (is_read_locked rpwp) eqn:Hr; [auto|].
    assert (try_clear_body rpwp = Some (mod_read_pointer rpwp (write_pointer rpwp)))
      by (apply try_clear_body_Some; auto).
    congruence.
Qed.

(** C9. On an index of the array, [prev_pointer], the wrapping
    [unsigned] subtraction followed by [% N], is [(x + N - 1) mod N]:
    [N - 1] at 0 and [x - 1] elsewhere. *)
Theorem prev_pointer_spec (x : Z) :
  0 <= x < N ->
  prev_pointer x = (x + N - 1) mod N /\
  prev_pointer x = (if x =? 0 then N - 1 else x - 1).
Proof.
  intros Hx. pose proof (N_range cfg_ok) as HN.
  destruct (N_pow2 cfg_ok) as (k & Hk & HNk).
  assert (Hprev : prev_pointer x = if x =? 0 then N - 1 else x - 1).
  { unfold prev_pointer, u32, u16. destruct (Z.eqb_spec x 0) as [->|Hne].
    - change ((0 - 1) mod 2 ^ 32) with (2 ^ 32 - 1).
      rewrite (usize_small cfg_ok) by lia.
      assert (Hm : (2 ^ 32 - 1) mod N = N - 1).
      { symmetry. apply Z.mod_unique with (2 ^ (32 - k) - 1); [lia|].
        rewrite HNk, Z.mul_sub_distr_l, <- Z.pow_add_r by lia.
        replace (k + (32 - k)) with 32 by lia. lia. }
      rewrite Hm. apply Z.mod_small. lia.
    - rewrite (Z.mod_small (x - 1)) by lia.
      rewrite (usize_small cfg_ok) by lia.
      rewrite (Z.mod_small (x - 1) N) by lia.
      apply Z.mod_small. lia. }
  split; [|exact Hprev].
  rewrite Hprev. destruct (Z.eqb_spec x 0) as [->|Hne].
  - apply Z.mod_unique with 0; lia.
  - apply Z.mod_unique with 1; lia.
Qed.

(** C5. In every state reachable from the constructor through the public
    operations both cursors are indices of the array, [count] is
    [(write_pointer - read_pointer) mod N] and lies between 0 and [N - 1];
    [size] returns it and [capacity] is [N - 1]. *)
Theorem reachable_count (rpwp : Z) :
  reachable rpwp ->
  0 <= write_pointer rpwp < N /\
  0 <= read_pointer rpwp < N /\
  count rpwp = (write_pointer rpwp - read_pointer rpwp) mod N /\
  0 <= count rpwp <= N - 1 /\
  size rpwp = count rpwp /\
  capacity = N - 1.
Proof.
  intros (Hu & Hw & Hr)%(reachable_well_formed cfg_ok).
  pose proof (write_pointer_range rpwp) as [Hw0 _].
  pose proof (read_pointer_range rpwp) as [Hr0 _].
  repeat split; try assumption.
  - apply (count_spec cfg_ok); assumption.
  - apply (count_range cfg_ok); assumption.
  - apply (count_range cfg_ok); assumption.
  - apply (capacity_spec cfg_ok).
Qed.

(** C10. In every reachable state the cursors are below [N <= 32768], so
    an index returned by a successful [lock_write] or [lock_read] is an
    index of the array and differs from [INVALID_INDEX]; and on any state
    word [unlock_write] and [unlock_read] of [INVALID_INDEX] fail. *)
Theorem index_valid (rpwp : Z) :
  reachable rpwp ->
  (write_pointer rpwp < N /\ read_pointer rpwp < N /\ N <= 32768) /\
  (forall min_free,
     fst (fst (lock_write rpwp min_free)) = true ->
     0 <= snd (fst (lock_write rpwp min_free)) < N /\
     snd (fst (lock_write rpwp min_free)) <> INVALID_INDEX) /\
  (forall min_remains,
     fst (fst (lock_read rpwp min_remains)) = true ->
     0 <= snd (fst (lock_read rpwp min_remains)) < N /\
     snd (fst (lock_read rpwp min_remains)) <> INVALID_INDEX) /\
  (forall w commit,
     fst (unlock_write w INVALID_INDEX commit) = false /\
     fst (unlock_read w INVALID_INDEX commit) = false).
Proof.
  intros (Hu & Hw & Hr)%(reachable_well_formed cfg_ok).
  pose proof (N_range cfg_ok) as HN.
  pose proof (write_pointer_range rpwp) as [Hw0 _].
  pose proof (read_pointer_range rpwp) as [Hr0 _].
  split; [repeat split; (assumption || lia)|].
  split; [|split].
  - intros mf. rewrite lock_write_unfold.
    destruct (lock_write_body mf rpwp) as [d|] eqn:E; simpl; [|discriminate].
    apply lock_write_body_Some in E as (_ & _ & ->). intros _.
    rewrite write_pointer_mod_write_locked, INVALID_INDEX_value. lia.
  - intros mr. rewrite lock_read_unfold.
    destruct (lock_read_body mr rpwp) as [d|] eqn:E; simpl; [|discriminate].
    apply lock_read_body_Some in E as (_ & _ & ->). intros _.
    rewrite read_pointer_mod_read_locked, INVALID_INDEX_value. lia.
  - intros w commit. rewrite unlock_write_unfold, unlock_read_unfold.
    pose proof (write_pointer_range w) as Hwr.
    pose proof (read_pointer_range w) as Hrr.
    unfold uint15 in Hwr, Hrr. split.
    + destruct (unlock_write_body INVALID_INDEX commit w) eqn:E; [|reflexivity].
      apply unlock_write_body_Some in E as (E & _).
      rewrite INVALID_INDEX_value in E. lia.
    + destruct (unlock_read_body INVALID_INDEX commit w) eqn:E; [|reflexivity].
      apply unlock_read_body_Some in E as (E & _).
      rewrite INVALID_INDEX_value in E. lia.
Qed.

End Specification.

(** ** Write and read cycles *)

Section Cycles.

Context {cfg : instantiation} (cfg_ok : instantiable = true).
Context {T : Type}.

(** The word a write cycle leaves behind. *)
Lemma write_cycle_Some min_free commit (v : T) b b' :
  write_cycle min_free commit v b = Some b' <->
  is_write_locked (rpwp_ b) = false /\ min_free < free_count (rpwp_ b) /\
  exists w',
    b' = {| rpwp_ := w';
            elements_ := <[Z.to_nat (write_pointer (rpwp_ b)) := v]> (elements_ b) |} /\
    unlock_write_body (write_pointer (rpwp_ b)) commit
      (mod_write_locked (rpwp_ b) true) = Some w'.
Proof.
  unfold write_cycle. rewrite lock_write_unfold.
  destruct (lock_write_body min_free (rpwp_ b)) as [d|] eqn:E.
  - apply lock_write_body_Some in E as (Hl & Hf & ->).
    cbn [at_put rpwp_ elements_].
    rewrite write_pointer_mod_write_locked, unlock_write_unfold.
    destruct (unlock_write_body _ commit _) as [w'|] eqn:E'.
    + split.
      * intros [= <-]. eauto.
      * intros (_ & _ & w'' & -> & [= <-]). reflexivity.
    + split; [discriminate|]. intros (_ & _ & w'' & _ & ?). discriminate.
  - split; [discriminate|]. intros (Hl & Hf & _).
    assert (lock_write_body min_free (rpwp_ b) <> None) as Hn
      by (erewrite (proj2 (lock_write_body_Some _ _ _)); [discriminate|eauto]).
    contradiction.
Qed.

Lemma read_cycle_Some min_remains commit (b : buffer T) v b' :
  read_cycle min_remains commit b = Some (v, b') <->
  is_read_locked (rpwp_ b) = false /\ min_remains < count (rpwp_ b) /\
  elements_ b !! Z.to_nat (read_pointer (rpwp_ b)) = Some v /\
  exists w',
    b' = {| rpwp_ := w'; elements_ := elements_ b |} /\
    unlock_read_body (read_pointer (rpwp_ b)) commit
      (mod_read_locked (rpwp_ b) true) = Some w'.
Proof.
  unfold read_cycle. rewrite lock_read_unfold.
  destruct (lock_read_body min_remains (rpwp_ b)) as [d|] eqn:E.
  - apply lock_read_body_Some in E as (Hl & Hf & ->).
    unfold at_. cbn [rpwp_ elements_].
    rewrite read_pointer_mod_read_locked, unlock_read_unfold.
    destruct (elements_ b !! _) as [v0|] eqn:Ev.
    + destruct (unlock_read_body _ commit _) as [w'|] eqn:E'.
      * split.
        -- intros [= <- <-]. eauto 10.
        -- intros (_ & _ & [= <-] & w'' & -> & [= <-]). reflexivity.
      * split; [discriminate|]. intros (_ & _ & _ & w'' & _ & ?). discriminate.
    + split; [discriminate|]. intros (_ & _ & ? & _). discriminate.
  - split; [discriminate|]. intros (Hl & Hf & _).
    assert (lock_read_body min_remains (rpwp_ b) <> None) as Hn
      by (erewrite (proj2 (lock_read_body_Some _ _ _)); [discriminate|eauto]).
    contradiction.
Qed.

(** The unlock that ends a cycle always finds its own reservation. *)
Lemma unlock_after_lock_write w commit :
  unlock_write_body (write_pointer w) commit (mod_write_locked w true) =
  Some (mod_write_locked
          (if commit
           then mod_write_pointer (mod_write_locked w true)
                  (next_pointer (write_pointer w))
           else mod_write_locked w true) false).
Proof.
  apply unlock_write_body_Some.
  rewrite write_pointer_mod_write_locked, is_write_locked_mod_write_locked.
  auto.
Qed.

Lemma unlock_after_lock_read w commit :
  unlock_read_body (read_pointer w) commit (mod_read_locked w true) =
  Some (mod_read_locked
          (if commit
           then mod_read_pointer (mod_read_locked w true)
                  (next_pointer (read_pointer w))
           else mod_read_locked w true) false).
Proof.
  apply unlock_read_body_Some.
  rewrite read_pointer_mod_read_locked, is_read_locked_mod_read_locked.
  auto.
Qed.

(** An aborted reservation restores the word it found. *)
Lemma abort_write_word w :
  uint32 w -> is_write_locked w = false ->
  mod_write_locked (mod_write_locked w true) false = w.
Proof.
  intros Hu Hl. apply fields_inj.
  - auto using mod_write_locked_uint32.
  - assumption.
  - now rewrite !write_pointer_mod_write_locked.
  - now rewrite is_write_locked_mod_write_locked.
  - now rewrite !read_pointer_mod_write_locked.
  - now rewrite !is_read_locked_mod_write_locked.
Qed.

Lemma abort_read_word w :
  uint32 w -> is_read_locked w = false ->
  mod_read_locked (mod_read_locked w true) false = w.
Proof.
  intros Hu Hl. apply fields_inj.
  - auto using mod_read_locked_uint32.
  - assumption.
  - now rewrite !write_pointer_mod_read_locked.
  - now rewrite !is_write_locked_mod_read_locked.
  - now rewrite !read_pointer_mod_read_locked.
  - now rewrite is_read_locked_mod_read_locked.
Qed.

(** Fields of the word a committed cycle installs. *)
Lemma commit_write_word w :
  let w' := mod_write_locked
              (mod_write_pointer (mod_write_locked w true)
                 (next_pointer (write_pointer w))) false in
  uint32 w' /\
  write_pointer w' = next_pointer (write_pointer w) /\
  is_write_locked w' = false /\
  read_pointer w' = read_pointer w /\
  is_read_locked w' = is_read_locked w.
Proof.
  cbv zeta. pose proof (next_write_pointer_uint15 cfg_ok w) as Hn.
  split; [apply mod_write_locked_uint32, mod_write_pointer_uint32|].
  rewrite write_pointer_mod_write_locked, is_write_locked_mod_write_locked,
    read_pointer_mod_write_locked, is_read_locked_mod_write_locked.
  rewrite write_pointer_mod_write_pointer, read_pointer_mod_write_pointer,
    is_read_locked_mod_write_pointer by assumption.
  rewrite read_pointer_mod_write_locked, is_read_locked_mod_write_locked.
  auto.
Qed.

Lemma commit_read_word w :
  let w' := mod_read_locked
              (mod_read_pointer (mod_read_locked w true)
                 (next_pointer (read_pointer w))) false in
  uint32 w' /\
  read_pointer w' = next_pointer (read_pointer w) /\
  is_read_locked w' = false /\
  write_pointer w' = write_pointer w /\
  is_write_locked w' = is_write_locked w.
Proof.
  cbv zeta. pose proof (next_read_pointer_uint15 cfg_ok w) as Hn.
  split; [apply mod_read_locked_uint32, mod_read_pointer_uint32|].
  rewrite read_pointer_mod_read_locked, is_read_locked_mod_read_locked,
    write_pointer_mod_read_locked, is_write_locked_mod_read_locked.
  rewrite read_pointer_mod_read_pointer, write_pointer_mod_read_pointer,
    is_write_locked_mod_read_pointer by assumption.
  rewrite write_pointer_mod_read_locked, is_write_locked_mod_read_locked.
  auto.
Qed.

End Cycles.

(** ** Sequences of cycles *)

Section Sequences.

Context {cfg : instantiation} (cfg_ok : instantiable = true).
Context {T : Type}.

Implicit Types (b : buffer T) (vs : list T).

(** A committed write cycle on a buffer with room. *)
Lemma write_cycle_commit (v : T) b :
  well_formed (rpwp_ b) ->
  is_write_locked (rpwp_ b) = false ->
  count (rpwp_ b) < N - 1 ->
  exists w',
    write_cycle 0 true v b =
      Some {| rpwp_ := w';
              elements_ := <[Z.to_nat (write_pointer (rpwp_ b)) := v]> (elements_ b) |} /\
    well_formed w' /\
    write_pointer w' = (write_pointer (rpwp_ b) + 1) mod N /\
    is_write_locked w' = false /\
    read_pointer w' = read_pointer (rpwp_ b) /\
    is_read_locked w' = is_read_locked (rpwp_ b).
Proof.
  intros (Hu & Hw & Hr) Hl Hc.
  pose proof (count_nonneg cfg_ok (rpwp_ b)) as Hc0.
  destruct (commit_write_word cfg_ok (rpwp_ b)) as (Hu' & Hwp & Hwl & Hrp & Hrl).
  eexists. split; [|split; [|split; [|eauto]]].
  - apply write_cycle_Some. split; [assumption|]. split.
    + rewrite (free_count_small cfg_ok) by lia. lia.
    + eexists. split; [reflexivity|]. exact (unlock_after_lock_write (rpwp_ b) true).
  - unfold well_formed. rewrite Hwp, Hrp. repeat split; try apply Hu'; try assumption.
    apply (next_pointer_range cfg_ok), pointer_uint16, write_pointer_range.
  - rewrite Hwp.
    apply (next_pointer_spec cfg_ok), pointer_uint16, write_pointer_range.
Qed.

(** A committed read cycle on a buffer that holds something. *)
Lemma read_cycle_commit b :
  well_formed (rpwp_ b) ->
  is_read_locked (rpwp_ b) = false ->
  0 < count (rpwp_ b) ->
  length (elements_ b) = Z.to_nat N ->
  exists v w',
    elements_ b !! Z.to_nat (read_pointer (rpwp_ b)) = Some v /\
    read_cycle 0 true b = Some (v, {| rpwp_ := w'; elements_ := elements_ b |}) /\
    well_formed w' /\
    read_pointer w' = (read_pointer (rpwp_ b) + 1) mod N /\
    is_read_locked w' = false /\
    write_pointer w' = write_pointer (rpwp_ b) /\
    is_write_locked w' = is_write_locked (rpwp_ b).
Proof.
  intros (Hu & Hw & Hr) Hl Hc Hlen.
  pose proof (read_pointer_range (rpwp_ b)) as [Hr0 _].
  destruct (commit_read_word cfg_ok (rpwp_ b)) as (Hu' & Hrp & Hrl & Hwp & Hwl).
  destruct (lookup_lt_is_Some_2 (elements_ b) (Z.to_nat (read_pointer (rpwp_ b))))
    as [v Hv]; [lia|].
  exists v. eexists. split; [exact Hv|].
  split; [|split; [|split; [|eauto]]].
  - apply read_cycle_Some. split; [assumption|]. split; [assumption|].
    split; [exact Hv|].
    eexists. split; [reflexivity|]. exact (unlock_after_lock_read (rpwp_ b) true).
  - unfold well_formed. rewrite Hwp, Hrp. repeat split; try apply Hu'; try assumption.
    apply (next_pointer_range cfg_ok), pointer_uint16, read_pointer_range.
  - rewrite Hrp.
    apply (next_pointer_spec cfg_ok), pointer_uint16, read_pointer_range.
Qed.

(** Committed writes into a buffer whose read cursor is at 0 fill the
    array from the write cursor on. *)
Lemma write_all_from vs : forall b,
  well_formed (rpwp_ b) ->
  is_write_locked (rpwp_ b) = false ->
  read_pointer (rpwp_ b) = 0 ->
  write_pointer (rpwp_ b) + Z.of_nat (length vs) <= N - 1 ->
  exists w',
    write_all vs b =
      Some {| rpwp_ := w';
              elements_ := list_inserts (Z.to_nat (write_pointer (rpwp_ b))) vs
                             (elements_ b) |} /\
    well_formed w' /\
    write_pointer w' = write_pointer (rpwp_ b) + Z.of_nat (length vs) /\
    is_write_locked w' = false /\
    read_pointer w' = 0 /\
    is_read_locked w' = is_read_locked (rpwp_ b).
Proof.
  induction vs as [|v vs IH]; intros b Hwf Hl Hrp Hlen.
  - exists (rpwp_ b). simpl. rewrite Z.add_0_r. destruct b; simpl in *. auto 10.
  - simpl length in Hlen. rewrite Nat2Z.inj_succ in Hlen.
    pose proof (write_pointer_range (rpwp_ b)) as [Hw0 _].
    pose proof Hwf as (_ & Hw & Hr).
    assert (Hcount : count (rpwp_ b) = write_pointer (rpwp_ b)).
    { rewrite (count_spec cfg_ok), Hrp, Z.sub_0_r by assumption.
      apply Z.mod_small. lia. }
    destruct (write_cycle_commit v b) as (w1 & Hcyc & Hwf1 & Hwp1 & Hwl1 & Hrp1 & Hrl1);
      [assumption | assumption | lia |].
    rewrite Z.mod_small in Hwp1 by lia.
    set (b1 := {| rpwp_ := w1; elements_ := _ |}) in Hcyc.
    destruct (IH b1) as (w' & Hall & Hwf' & Hwp' & Hwl' & Hrp' & Hrl').
    { exact Hwf1. } { exact Hwl1. } { simpl. congruence. }
    { simpl. rewrite Hwp1. lia. }
    exists w'. simpl write_all. rewrite Hcyc, Hall. subst b1. simpl in *.
    rewrite Hwp1 in *.
    split; [|split; [exact Hwf'|split; [|split; [exact Hwl'|split;
      [exact Hrp'|congruence]]]]].
    2: { rewrite Hwp'. simpl length. lia. }
    f_equal. f_equal.
    replace (Z.to_nat (write_pointer (rpwp_ b) + 1))
      with (S (Z.to_nat (write_pointer (rpwp_ b)))) by lia.
    symmetry. apply list_insert_inserts_lt. lia.
Qed.

(** Committed reads return the slots from the read cursor on. *)
Lemma read_n_from k : forall b,
  well_formed (rpwp_ b) ->
  is_read_locked (rpwp_ b) = false ->
  read_pointer (rpwp_ b) + Z.of_nat k <= write_pointer (rpwp_ b) ->
  length (elements_ b) = Z.to_nat N ->
  exists w',
    read_n k b =
      Some (take k (drop (Z.to_nat (read_pointer (rpwp_ b))) (elements_ b)),
            {| rpwp_ := w'; elements_ := elements_ b |}).
Proof.
  induction k as [|k IH]; intros b Hwf Hl Hle Hlen.
  - exists (rpwp_ b). simpl. destruct b; reflexivity.
  - rewrite Nat2Z.inj_succ in Hle.
    pose proof (read_pointer_range (rpwp_ b)) as [Hr0 _].
    pose proof Hwf as (_ & Hw & Hr).
    assert (Hcount : count (rpwp_ b) = write_pointer (rpwp_ b) - read_pointer (rpwp_ b)).
    { rewrite (count_spec cfg_ok) by assumption. apply Z.mod_small. lia. }
    destruct (read_cycle_commit b) as (v & w1 & Hv & Hcyc & Hwf1 & Hrp1 & Hrl1 & Hwp1 & _);
      [assumption | assumption | lia | assumption |].
    rewrite Z.mod_small in Hrp1 by lia.
    set (b1 := {| rpwp_ := w1; elements_ := _ |}) in Hcyc.
    destruct (IH b1) as (w' & Hread); simpl; try assumption; [lia|].
    exists w'. simpl read_n. rewrite Hcyc, Hread. subst b1. simpl.
    rewrite Hrp1. f_equal. f_equal.
    rewrite (drop_S _ _ _ Hv). simpl.
    replace (Z.to_nat (read_pointer (rpwp_ b) + 1))
      with (S (Z.to_nat (read_pointer (rpwp_ b)))) by lia.
    reflexivity.
Qed.

(** C1. From a freshly constructed buffer, [k <= N - 1] committed write
    cycles storing [v1..vk] followed by [k] committed read cycles all
    succeed, and the reads return [v1..vk] in that order. *)
Theorem fifo_round_trip (init vs : list T) :
  length init = Z.to_nat N ->
  Z.of_nat (length vs) <= N - 1 ->
  exists b1 b2,
    write_all vs (lockfree_circulation_buffer init) = Some b1 /\
    read_n (length vs) b1 = Some (vs, b2).
Proof.
  intros Hinit Hk. pose proof (N_range cfg_ok) as HN.
  assert (Hwp0 : write_pointer 0 = 0) by reflexivity.
  assert (Hrp0 : read_pointer 0 = 0) by reflexivity.
  assert (Hwl0 : is_write_locked 0 = false) by reflexivity.
  pose proof (write_all_from vs (lockfree_circulation_buffer init)) as H.
  cbn [lockfree_circulation_buffer rpwp_ elements_] in H.
  rewrite Hwp0 in H. simpl in H.
  destruct (H (well_formed_0 cfg_ok) Hwl0 Hrp0 Hk)
    as (w1 & Hall & Hwf1 & Hwp1 & Hwl1 & Hrp1 & Hrl1).
  clear H.
  set (b1 := {| rpwp_ := w1; elements_ := _ |}) in Hall.
  destruct (read_n_from (length vs) b1) as (w2 & Hread); simpl;
    try assumption.
  { lia. } { rewrite length_inserts. assumption. }
  exists b1. eexists. split; [exact Hall|]. rewrite Hread. subst b1. simpl.
  rewrite Hrp1. simpl. f_equal. f_equal.
  rewrite <- (take_drop (length vs) init) at 1.
  rewrite list_inserts_0_r by (rewrite length_take; lia).
  apply take_app_length.
Qed.

End Sequences.

(** ** Aborted cycles *)

Section Abort.

Context {cfg : instantiation} (cfg_ok : instantiable = true).
Context {T : Type}.

Implicit Types (b : buffer T).

Lemma count_pos_cursors w : 0 < count w -> read_pointer w <> write_pointer w.
Proof.
  intros Hc Heq. unfold count in Hc. rewrite Heq, Z.leb_refl, Z.sub_diag in Hc.
  rewrite (usize_small cfg_ok) in Hc; lia.
Qed.

Lemma write_cycle_abort min_free (v : T) b b' :
  uint32 (rpwp_ b) ->
  write_cycle min_free false v b = Some b' ->
  b' = {| rpwp_ := rpwp_ b;
          elements_ := <[Z.to_nat (write_pointer (rpwp_ b)) := v]> (elements_ b) |}.
Proof.
  intros Hu (Hl & _ & w' & -> & Hw')%write_cycle_Some.
  rewrite unlock_after_lock_write in Hw'. cbv iota in Hw'.
  assert (w' = mod_write_locked (mod_write_locked (rpwp_ b) true) false)
    as -> by congruence.
  now rewrite abort_write_word.
Qed.

Lemma read_cycle_abort min_remains b v b' :
  uint32 (rpwp_ b) ->
  read_cycle min_remains false b = Some (v, b') -> b' = b.
Proof.
  intros Hu (Hl & _ & _ & w' & -> & Hw')%read_cycle_Some.
  rewrite unlock_after_lock_read in Hw'. cbv iota in Hw'.
  assert (w' = mod_read_locked (mod_read_locked (rpwp_ b) true) false)
    as -> by congruence.
  rewrite abort_read_word by assumption. now destruct b.
Qed.

Lemma abort_writes_Some (args : list (Z * T)) : forall b b',
  uint32 (rpwp_ b) ->
  abort_writes args b = Some b' ->
  rpwp_ b' = rpwp_ b /\
  forall i, i <> Z.to_nat (write_pointer (rpwp_ b)) ->
            elements_ b' !! i = elements_ b !! i.
Proof.
  induction args as [|[mf v] args IH]; intros b b' Hu; simpl.
  - intros [= <-]. auto.
  - destruct (write_cycle mf false v b) as [b1|] eqn:E; [|discriminate].
    apply write_cycle_abort in E; [|assumption]. subst b1.
    intros [Hw He]%IH; [|assumption]. simpl in Hw, He.
    split; [assumption|]. intros i Hi.
    rewrite He by assumption. now apply list_lookup_insert_ne.
Qed.

Lemma abort_reads_Some (args : list Z) : forall b b',
  uint32 (rpwp_ b) -> abort_reads args b = Some b' -> b' = b.
Proof.
  induction args as [|mr args IH]; intros b b' Hu; simpl.
  - now intros [= <-].
  - destruct (read_cycle mr false b) as [[v b1]|] eqn:E; [|discriminate].
    apply read_cycle_abort in E; [|assumption]. subst b1. now apply IH.
Qed.

Lemma abort_writes_succeed (args : list (Z * T)) : forall b,
  uint32 (rpwp_ b) ->
  is_write_locked (rpwp_ b) = false ->
  Forall (fun a => fst a < free_count (rpwp_ b)) args ->
  is_Some (abort_writes args b).
Proof.
  induction args as [|[mf v] args IH]; intros b Hu Hl Hall; simpl; [eauto|].
  apply Forall_cons in Hall as [Hmf Hall]. simpl in Hmf.
  destruct (write_cycle mf false v b) as [b1|] eqn:E.
  - apply write_cycle_abort in E; [|assumption]. subst b1. now apply IH.
  - assert (write_cycle mf false v b <> None) as Hn; [|contradiction].
    erewrite (proj2 (write_cycle_Some _ _ _ _ _)); [discriminate|].
    split; [assumption|]. split; [assumption|].
    eexists. split; [reflexivity|]. apply unlock_after_lock_write.
Qed.

Lemma abort_reads_succeed (args : list Z) : forall b,
  well_formed (rpwp_ b) ->
  length (elements_ b) = Z.to_nat N ->
  is_read_locked (rpwp_ b) = false ->
  Forall (fun min_remains => min_remains < count (rpwp_ b)) args ->
  is_Some (abort_reads args b).
Proof.
  induction args as [|mr args IH]; intros b Hwf Hlen Hl Hall; simpl; [eauto|].
  apply Forall_cons in Hall as [Hmr Hall].
  destruct Hwf as (Hu & Hw & Hr).
  pose proof (read_pointer_range (rpwp_ b)) as [Hr0 _].
  destruct (lookup_lt_is_Some_2 (elements_ b) (Z.to_nat (read_pointer (rpwp_ b))))
    as [v Hv]; [lia|].
  destruct (read_cycle mr false b) as [[v' b1]|] eqn:E.
  - apply read_cycle_abort in E; [|assumption]. subst b1.
    apply IH; unfold well_formed; auto.
  - assert (read_cycle mr false b <> None) as Hn; [|contradiction].
    erewrite (proj2 (read_cycle_Some _ _ _ v _)); [discriminate|].
    split; [assumption|]. split; [assumption|]. split; [exact Hv|].
    eexists. split; [reflexivity|]. apply unlock_after_lock_read.
Qed.

(** Committed reads never look at the slot under the write cursor. *)
Lemma read_n_agree k : forall b b',
  rpwp_ b' = rpwp_ b ->
  (forall i, i <> Z.to_nat (write_pointer (rpwp_ b)) ->
             elements_ b' !! i = elements_ b !! i) ->
  fst <$> read_n k b' = fst <$> read_n k b.
Proof.
  induction k as [|k IH]; intros b b' Hw He; [reflexivity|].
  simpl read_n.
  destruct (read_cycle 0 true b) as [[v b1]|] eqn:E.
  - apply read_cycle_Some in E as (Hl & Hc & Hv & w' & -> & Hw').
    assert (read_cycle 0 true b' =
            Some (v, {| rpwp_ := w'; elements_ := elements_ b' |})) as ->.
    { apply read_cycle_Some. rewrite Hw.
      split; [assumption|]. split; [assumption|]. split; [|eauto].
      rewrite He; [assumption|].
      pose proof (count_pos_cursors _ Hc).
      pose proof (read_pointer_range (rpwp_ b)) as [? _].
      pose proof (write_pointer_range (rpwp_ b)) as [? _]. lia. }
    rewrite unlock_after_lock_read in Hw'. cbv iota in Hw'.
    destruct (commit_read_word cfg_ok (rpwp_ b)) as (_ & _ & _ & Hwp & _).
    cbv zeta in Hwp.
    set (w2 := mod_read_locked _ false) in Hw', Hwp.
    assert (w' = w2) as -> by congruence.
    specialize (IH {| rpwp_ := w2; elements_ := elements_ b |}
                   {| rpwp_ := w2; elements_ := elements_ b' |} eq_refl).
    cbn [rpwp_ elements_] in IH. rewrite Hwp in IH. specialize (IH He).
    destruct (read_n k {| rpwp_ := w2; elements_ := elements_ b' |})
      as [[vs' b2']|],
      (read_n k {| rpwp_ := w2; elements_ := elements_ b |}) as [[vs b2]|];
      simpl in *; congruence.
  - assert (read_cycle 0 true b' = None) as ->; [|reflexivity].
    destruct (read_cycle 0 true b') as [[v b1]|] eqn:E'; [|reflexivity].
    apply read_cycle_Some in E' as (Hl & Hc & Hv & w' & -> & Hw').
    rewrite Hw in Hl, Hc, Hv, Hw'.
    assert (read_cycle 0 true b <> None) as Hn; [|contradiction].
    erewrite (proj2 (read_cycle_Some _ _ _ v _)); [discriminate|].
    split; [assumption|]. split; [assumption|]. split; [|eauto].
    rewrite <- He; [assumption|].
    pose proof (count_pos_cursors _ Hc).
    pose proof (read_pointer_range (rpwp_ b)) as [? _].
    pose proof (write_pointer_range (rpwp_ b)) as [? _]. lia.
Qed.

(** C7. From a reachable state, aborted write cycles, whatever they leave
    in the reserved slot, give back the state word they found: [size] is
    unchanged and committed reads return the same values.  Aborted read
    cycles give back the whole buffer.  On an unlocked state with enough
    room, respectively enough items, the cycles do succeed. *)
Theorem abort_is_noop b (wargs : list (Z * T)) (rargs : list Z) :
  reachable (rpwp_ b) ->
  (forall b', abort_writes wargs b = Some b' ->
     rpwp_ b' = rpwp_ b /\
     size (rpwp_ b') = size (rpwp_ b) /\
     forall k, fst <$> read_n k b' = fst <$> read_n k b) /\
  (forall b', abort_reads rargs b = Some b' -> b' = b) /\
  (is_write_locked (rpwp_ b) = false ->
   Forall (fun a => fst a < free_count (rpwp_ b)) wargs ->
   is_Some (abort_writes wargs b)) /\
  (is_read_locked (rpwp_ b) = false ->
   length (elements_ b) = Z.to_nat N ->
   Forall (fun min_remains => min_remains < count (rpwp_ b)) rargs ->
   is_Some (abort_reads rargs b)).
Proof.
  intros Hwf%(reachable_well_formed cfg_ok). pose proof Hwf as (Hu & _).
  split; [|split; [|split]].
  - intros b' [Hw He]%abort_writes_Some; [|assumption].
    split; [assumption|]. split; [now rewrite Hw|].
    intros k. now apply read_n_agree.
  - intros b'. now apply abort_reads_Some.
  - intros Hl Hall. now apply abort_writes_succeed.
  - intros Hl Hlen Hall. now apply abort_reads_succeed.
Qed.

End Abort.

(** ** Interleaved runs keep the invariant *)

Section Interleaving.

Context {cfg : instantiation} (cfg_ok : instantiable = true).
Context {T : Type}.

Implicit Types (b : buffer T) (s : system T) (W R : list T).

Lemma mod_succ a : (a mod N + 1) mod N = (a + 1) mod N.
Proof.
  pose proof (N_range cfg_ok).
  rewrite <- (Z.add_mod_idemp_l a 1 N) by lia. reflexivity.
Qed.

(** Two numbers less than [N] apart lie in different residue classes. *)
Lemma mod_apart a c : 0 < c - a < N -> a mod N <> c mod N.
Proof.
  intros Hd Heq. pose proof (N_range cfg_ok).
  assert ((c - a) mod N = 0) as H0.
  { rewrite Zminus_mod, Heq, Z.sub_diag. apply Z.mod_0_l. lia. }
  rewrite Z.mod_small in H0 by lia. lia.
Qed.

(** A thread's invariant does not depend on the other thread's half. *)
Lemma producer_inv_frame w E p c W R w' c' R' :
  is_write_locked w' = is_write_locked w ->
  write_pointer w' = write_pointer w ->
  Z.of_nat (length R) - pending c <= Z.of_nat (length R') - pending c' ->
  producer_inv {| shared := {| rpwp_ := w; elements_ := E |}; producer := p;
                  consumer := c; committed := W; consumed := R |} ->
  producer_inv {| shared := {| rpwp_ := w'; elements_ := E |}; producer := p;
                  consumer := c'; committed := W; consumed := R' |}.
Proof.
  intros Hl Hp Hr. unfold producer_inv, writes_done, reads_done.
  cbn [shared producer consumer committed consumed rpwp_ elements_].
  rewrite Hl, Hp. destruct p; intuition lia.
Qed.

Lemma consumer_inv_frame w E p c W R w' E' p' W' :
  is_read_locked w' = is_read_locked w ->
  read_pointer w' = read_pointer w ->
  (length W <= length W')%nat ->
  consumer_inv {| shared := {| rpwp_ := w; elements_ := E |}; producer := p;
                  consumer := c; committed := W; consumed := R |} ->
  consumer_inv {| shared := {| rpwp_ := w'; elements_ := E' |}; producer := p';
                  consumer := c; committed := W'; consumed := R |}.
Proof.
  intros Hl Hp Hr. unfold consumer_inv, writes_done, reads_done.
  cbn [shared producer consumer committed consumed rpwp_ elements_].
  rewrite Hl, Hp. destruct c; intuition lia.
Qed.


Lemma count_done w cw cr :
  write_pointer w = cw mod N -> read_pointer w = cr mod N ->
  0 <= cr <= cw -> cw <= cr + (N - 1) ->
  count w = cw - cr.
Proof.
  intros Hw Hr H1 H2. pose proof (N_range cfg_ok).
  pose proof (Z.mod_pos_bound cw N). pose proof (Z.mod_pos_bound cr N).
  rewrite (count_spec cfg_ok), Hw, Hr, <- Zminus_mod by lia.
  apply Z.mod_small. lia.
Qed.

Local Ltac unfold_inv :=
  unfold system_inv, writes_done, reads_done in *;
  cbn [shared producer consumer committed consumed rpwp_ elements_ at_put] in *.

Lemma producer_step_inv w E p c W R b' p' W' :
  system_inv {| shared := {| rpwp_ := w; elements_ := E |}; producer := p;
                consumer := c; committed := W; consumed := R |} ->
  producer_step {| rpwp_ := w; elements_ := E |} p W b' p' W' ->
  system_inv {| shared := b'; producer := p'; consumer := c;
                committed := W'; consumed := R |}.
Proof.
  intros Hinv Hstep. pose proof (N_range cfg_ok) as HN.
  pose proof Hinv as (Hlen & Hwp & Hrp & Hrw & Hcap & Hsto & Hpre & HRW & HP & HC).
  unfold_inv.
  inversion Hstep; subst; unfold_inv.
  - (* lock_write_load *)
    do 8 (split; [assumption|]). split.
    + unfold producer_inv in *. unfold_inv. split; [assumption | lia].
    + eapply consumer_inv_frame; [..|exact HC]; reflexivity.
  - (* lock_write_break *)
    do 8 (split; [assumption|]). split.
    + unfold producer_inv in *. unfold_inv. tauto.
    + eapply consumer_inv_frame; [..|exact HC]; reflexivity.
  - (* lock_write_cas *)
    match goal with H : compare_exchange_weak _ _ _ _ = _ |- _ =>
      apply compare_exchange_weak_true in H as [<- ->] end.
    match goal with H : lock_write_body _ _ = Some _ |- _ =>
      apply lock_write_body_Some in H as (Hl & Hfree & ->) end.
    rewrite write_pointer_mod_write_locked, read_pointer_mod_write_locked.
    do 8 (split; [assumption|]). split.
    + unfold producer_inv in *. unfold_inv.
      rewrite is_write_locked_mod_write_locked, write_pointer_mod_write_locked.
      destruct HP as [_ Hmf].
      rewrite (free_count_small cfg_ok) in Hfree;
        rewrite (count_done w _ _ Hwp Hrp) in *; lia.
    + eapply consumer_inv_frame; [..|exact HC];
        auto using is_read_locked_mod_write_locked, read_pointer_mod_write_locked.
  - (* lock_write_retry *)
    match goal with H : compare_exchange_weak _ _ _ _ = _ |- _ =>
      apply compare_exchange_weak_false in H as [-> ->] end.
    do 8 (split; [assumption|]). split.
    + unfold producer_inv in *. unfold_inv. tauto.
    + eapply consumer_inv_frame; [..|exact HC]; reflexivity.
  - (* slot_store *)
    unfold producer_inv in HP. unfold_inv. destruct HP as (Hl & -> & Hroom).
    pose proof (Z.mod_pos_bound (Z.of_nat (length W')) N) as Hb.
    split; [now rewrite length_insert|].
    repeat (split; [assumption|]). split; [|split; [assumption|split; [assumption|split]]].
    + intros j Hj. rewrite list_lookup_insert_ne; [now apply Hsto|].
      rewrite Hwp.
      pose proof (mod_apart (Z.of_nat j) (Z.of_nat (length W'))) as Hne.
      pose proof (Z.mod_pos_bound (Z.of_nat j) N). lia.
    + unfold producer_inv. unfold_inv. repeat (split; [assumption || reflexivity|]).
      apply list_lookup_insert_eq. rewrite Hwp. lia.
    + eapply consumer_inv_frame; [..|exact HC]; reflexivity.
  - (* unlock_write_load *)
    do 8 (split; [assumption|]). split.
    + unfold producer_inv in *. unfold_inv. tauto.
    + eapply consumer_inv_frame; [..|exact HC]; reflexivity.
  - (* unlock_write_break *)
    exfalso. unfold producer_inv in HP. unfold_inv.
    destruct HP as (Hl & -> & _ & _ & He & Hel).
    match goal with H : unlock_write_body _ _ _ = None |- _ =>
      erewrite (proj2 (unlock_write_body_Some _ _ _ _)) in H; [discriminate|] end.
    eauto.
  - (* unlock_write_cas *)
    match goal with H : compare_exchange_weak _ _ _ _ = _ |- _ =>
      apply compare_exchange_weak_true in H as [<- ->] end.
    match goal with H : unlock_write_body _ _ _ = Some _ |- _ =>
      apply unlock_write_body_Some in H as (-> & Hl & ->) end.
    destruct (unlock_write_fields cfg_ok w commit) as (Fwp & Fwl & Frp & Frl).
    cbv zeta in Fwp, Fwl, Frp, Frl.
    set (w' := mod_write_locked _ false) in *. clearbody w'.
    unfold producer_inv in HP. unfold_inv.
    destruct HP as (_ & _ & Hroom & Hv & _ & _).
    rewrite Fwp, Frp.
    split; [assumption|].
    assert (consumer_inv
      {| shared := {| rpwp_ := w'; elements_ := E |};
         producer := P_idle; consumer := c;
         committed := (if commit then W ++ [v] else W); consumed := R |}) as HC'.
    { eapply consumer_inv_frame; [..|exact HC]; try assumption.
      destruct commit; [rewrite length_app|]; simpl; lia. }
    assert (producer_inv
      {| shared := {| rpwp_ := w'; elements_ := E |};
         producer := P_idle; consumer := c;
         committed := (if commit then W ++ [v] else W); consumed := R |}) as HP'.
    { unfold producer_inv. unfold_inv. assumption. }
    destruct commit.
    + rewrite length_app. simpl length.
      rewrite (next_pointer_spec cfg_ok)
        by (apply pointer_uint16, write_pointer_range).
      rewrite Hwp, mod_succ.
      split; [f_equal; lia|]. split; [assumption|].
      split; [lia|]. split; [lia|]. split; [|split; [|split; [lia|split]]].
      * intros j Hj.
        destruct (Z.eq_dec (Z.of_nat j) (Z.of_nat (length W))) as [Heq|Hne].
        -- apply Nat2Z.inj in Heq. subst j.
           rewrite lookup_app_r, Nat.sub_diag by lia. simpl.
           rewrite <- Hwp. exact Hv.
        -- rewrite lookup_app_l by lia. apply Hsto. lia.
      * rewrite take_app_le by lia. assumption.
      * exact HP'.
      * exact HC'.
    + split; [assumption|]. do 6 (split; [assumption|]). split.
      * exact HP'.
      * exact HC'.
  - (* unlock_write_retry *)
    match goal with H : compare_exchange_weak _ _ _ _ = _ |- _ =>
      apply compare_exchange_weak_false in H as [-> ->] end.
    do 8 (split; [assumption|]). split.
    + unfold producer_inv in *. unfold_inv. tauto.
    + eapply consumer_inv_frame; [..|exact HC]; reflexivity.
Qed.


Lemma consumer_step_inv w E p c W R b' c' R' :
  system_inv {| shared := {| rpwp_ := w; elements_ := E |}; producer := p;
                consumer := c; committed := W; consumed := R |} ->
  consumer_step {| rpwp_ := w; elements_ := E |} c R b' c' R' ->
  system_inv {| shared := b'; producer := p; consumer := c';
                committed := W; consumed := R' |}.
Proof.
  intros Hinv Hstep. pose proof (N_range cfg_ok) as HN.
  pose proof Hinv as (Hlen & Hwp & Hrp & Hrw & Hcap & Hsto & Hpre & HRW & HP & HC).
  unfold_inv.
  inversion Hstep; subst; unfold_inv.
  - (* lock_read_load *)
    do 8 (split; [assumption|]). split.
    + eapply producer_inv_frame; [..|exact HP]; reflexivity.
    + unfold consumer_inv in *. unfold_inv. split; [assumption | lia].
  - (* lock_read_break *)
    do 8 (split; [assumption|]). split.
    + eapply producer_inv_frame; [..|exact HP]; reflexivity.
    + unfold consumer_inv in *. unfold_inv. tauto.
  - (* lock_read_cas *)
    match goal with H : compare_exchange_weak _ _ _ _ = _ |- _ =>
      apply compare_exchange_weak_true in H as [<- ->] end.
    match goal with H : lock_read_body _ _ = Some _ |- _ =>
      apply lock_read_body_Some in H as (Hl & Hcount & ->) end.
    rewrite write_pointer_mod_read_locked, read_pointer_mod_read_locked.
    do 8 (split; [assumption|]). split.
    + eapply producer_inv_frame; [..|exact HP];
        auto using is_write_locked_mod_read_locked, write_pointer_mod_read_locked.
      reflexivity.
    + unfold consumer_inv in *. unfold_inv.
      rewrite is_read_locked_mod_read_locked, read_pointer_mod_read_locked.
      destruct HC as [_ Hmr].
      rewrite (count_done w _ _ Hwp Hrp) in Hcount by assumption.
      simpl pending in *. repeat split; lia.
  - (* lock_read_retry *)
    match goal with H : compare_exchange_weak _ _ _ _ = _ |- _ =>
      apply compare_exchange_weak_false in H as [-> ->] end.
    do 8 (split; [assumption|]). split.
    + eapply producer_inv_frame; [..|exact HP]; reflexivity.
    + unfold consumer_inv in *. unfold_inv. tauto.
  - (* slot_load *)
    unfold consumer_inv in HC. unfold_inv. simpl pending in *.
    destruct HC as (Hl & -> & Hlt).
    match goal with H : at_ _ _ = Some _ |- _ =>
      unfold at_ in H; cbn [elements_] in H; rename H into Hv end.
    rewrite Hrp, Z.sub_0_r in Hv.
    rewrite Hsto in Hv by lia.
    assert (Hred : Z.of_nat (length (if commit then R ++ [v] else R)) -
                   (if commit then 1 else 0) =
                   Z.of_nat (length R) - 0).
    { destruct commit; [rewrite length_app; simpl length|]; lia. }
    rewrite Hred.
    do 6 (split; [assumption|]). split; [|split; [|split]].
    + destruct commit; [|assumption].
      rewrite length_app. simpl length.
      rewrite Nat.add_1_r, (take_S_r _ _ _ Hv). congruence.
    + destruct commit; [rewrite length_app; simpl length|]; lia.
    + eapply producer_inv_frame; [..|exact HP]; try reflexivity.
      simpl pending. lia.
    + unfold consumer_inv. unfold_inv. simpl pending. rewrite Hred. auto.
  - (* unlock_read_load *)
    assert (Hp : pending (C_unlock_read index commit v w) =
                 pending (C_loaded index commit v)) by reflexivity.
    rewrite Hp.
    do 8 (split; [assumption|]). split.
    + eapply producer_inv_frame; [..|exact HP]; try reflexivity; lia.
    + unfold consumer_inv in *. unfold_inv. rewrite Hp. tauto.
  - (* unlock_read_break *)
    exfalso. unfold consumer_inv in HC. unfold_inv.
    destruct HC as (Hl & -> & _ & He & Hel).
    match goal with H : unlock_read_body _ _ _ = None |- _ =>
      erewrite (proj2 (unlock_read_body_Some _ _ _ _)) in H; [discriminate|] end.
    eauto.
  - (* unlock_read_cas *)
    match goal with H : compare_exchange_weak _ _ _ _ = _ |- _ =>
      apply compare_exchange_weak_true in H as [<- ->] end.
    match goal with H : unlock_read_body _ _ _ = Some _ |- _ =>
      apply unlock_read_body_Some in H as (-> & Hl & ->) end.
    destruct (unlock_read_fields cfg_ok w commit) as (Frp & Frl & Fwp & Fwl).
    cbv zeta in Fwp, Fwl, Frp, Frl.
    set (w' := mod_read_locked _ false) in *. clearbody w'.
    unfold consumer_inv in HC. unfold_inv.
    destruct HC as (_ & _ & Hlt & _ & _).
    assert (Hpend : pending (C_unlock_read (read_pointer w) commit v w) =
                    if commit then 1 else 0) by reflexivity.
    rewrite Hpend in *. simpl pending.
    rewrite Fwp, Frp, Z.sub_0_r.
    assert (consumer_inv
      {| shared := {| rpwp_ := w'; elements_ := E |};
         producer := p; consumer := C_idle;
         committed := W; consumed := R' |}) as HC'.
    { unfold consumer_inv. unfold_inv. assumption. }
    assert (producer_inv
      {| shared := {| rpwp_ := w'; elements_ := E |};
         producer := p; consumer := C_idle;
         committed := W; consumed := R' |}) as HP'.
    { eapply producer_inv_frame; [..|exact HP]; try assumption.
      rewrite Hpend. simpl pending. destruct commit; lia. }
    split; [assumption|]. split; [assumption|].
    destruct commit.
    + rewrite (next_pointer_spec cfg_ok)
        by (apply pointer_uint16, read_pointer_range).
      rewrite Hrp, mod_succ.
      split; [f_equal; lia|]. split; [lia|]. split; [lia|].
      split; [intros j Hj; apply Hsto; lia|].
      do 2 (split; [assumption|]). split; assumption.
    + rewrite Z.sub_0_r in *.
      do 6 (split; [assumption|]). split; assumption.
  - (* unlock_read_retry *)
    match goal with H : compare_exchange_weak _ _ _ _ = _ |- _ =>
      apply compare_exchange_weak_false in H as [-> ->] end.
    assert (Hp : pending (C_unlock_read index commit v w) =
                 pending (C_unlock_read index commit v expected)) by reflexivity.
    rewrite Hp.
    do 8 (split; [assumption|]). split.
    + eapply producer_inv_frame; [..|exact HP]; try reflexivity; lia.
    + unfold consumer_inv in *. unfold_inv. rewrite Hp. tauto.
Qed.


Lemma start_inv (init : list T) :
  length init = Z.to_nat N -> system_inv (start init).
Proof.
  intros Hlen. pose proof (N_range cfg_ok).
  unfold system_inv, start, producer_inv, consumer_inv, writes_done, reads_done.
  cbn [shared producer consumer committed consumed rpwp_ elements_
       lockfree_circulation_buffer pending length].
  change (write_pointer 0) with 0. change (read_pointer 0) with 0.
  rewrite Z.mod_0_l by lia.
  repeat split; try (reflexivity || lia || assumption).
Qed.

Lemma step_inv s s' : system_inv s -> step s s' -> system_inv s'.
Proof.
  intros Hinv Hstep. destruct Hstep as [[w E] p c W R b' p' W' Hp
                                       |[w E] p c W R b' c' R' Hc].
  - eapply producer_step_inv; eassumption.
  - eapply consumer_step_inv; eassumption.
Qed.

Lemma run_inv s s' : system_inv s -> run s s' -> system_inv s'.
Proof. intros Hinv Hrun. induction Hrun; eauto using step_inv. Qed.

(** C8. Under any interleaving of the steps of one producer running write
    cycles and one consumer running read cycles on a freshly constructed
    buffer, [size] stays between 0 and [N - 1]; it is the number of
    committed writes not yet matched by a committed read; and the values
    read form a prefix, in order, of the values committed. *)
Theorem spsc_interleaving (init : list T) s :
  length init = Z.to_nat N ->
  run (start init) s ->
  0 <= size (rpwp_ (shared s)) <= N - 1 /\
  size (rpwp_ (shared s)) = writes_done s - reads_done s /\
  consumed s `prefix_of` committed s.
Proof.
  intros Hlen Hrun.
  assert (system_inv s) as (_ & Hwp & Hrp & Hrw & Hcap & _ & Hpre & _)
    by (eapply run_inv; [apply start_inv|]; eassumption).
  assert (Hsize : size (rpwp_ (shared s)) = writes_done s - reads_done s)
    by (apply count_done; assumption).
  split; [lia|]. split; [assumption|].
  exists (drop (length (consumed s)) (committed s)).
  pose proof (take_drop (length (consumed s)) (committed s)) as Htd.
  rewrite <- Hpre in Htd. symmetry. exact Htd.
Qed.

End Interleaving.

(** ** A thread running alone performs the operations of the first part *)

Section Solo.

Context {cfg : instantiation} {T : Type}.

Implicit Types (b : buffer T) (W R : list T).

Lemma compare_exchange_weak_strong w desired :
  compare_exchange_weak false w w desired = (true, desired, w).
Proof. unfold compare_exchange_weak. now rewrite Z.eqb_refl. Qed.

Lemma run_two (s1 s2 s3 : system T) : step s1 s2 -> step s2 s3 -> run s1 s3.
Proof. intros H1 H2. eapply run_step; [eapply run_step; [apply run_refl|]|]; eassumption. Qed.

Lemma solo_lock_write b c W R min_free :
  0 <= min_free < 2 ^ size_bits ->
  run {| shared := b; producer := P_idle; consumer := c;
         committed := W; consumed := R |}
      {| shared := {| rpwp_ := snd (lock_write (rpwp_ b) min_free);
                      elements_ := elements_ b |};
         producer := (if fst (fst (lock_write (rpwp_ b) min_free))
                      then P_locked (snd (fst (lock_write (rpwp_ b) min_free)))
                      else P_idle);
         consumer := c; committed := W; consumed := R |}.
Proof.
  intros Hmf. destruct b as [w E]. cbn [rpwp_ elements_].
  rewrite lock_write_unfold.
  destruct (lock_write_body min_free w) as [d|] eqn:Hb; cbn [fst snd].
  - eapply run_two.
    + apply step_producer, lock_write_load, Hmf.
    + eapply step_producer, lock_write_cas;
        [exact Hb | apply compare_exchange_weak_strong].
  - eapply run_two.
    + apply step_producer, lock_write_load, Hmf.
    + apply step_producer, lock_write_break, Hb.
Qed.

Lemma solo_unlock_write b c W R index commit v :
  run {| shared := b; producer := P_stored index commit v; consumer := c;
         committed := W; consumed := R |}
      {| shared := {| rpwp_ := snd (unlock_write (rpwp_ b) index commit);
                      elements_ := elements_ b |};
         producer := P_idle; consumer := c;
         committed := (if fst (unlock_write (rpwp_ b) index commit) && commit
                       then W ++ [v] else W);
         consumed := R |}.
Proof.
  destruct b as [w E]. cbn [rpwp_ elements_].
  rewrite unlock_write_unfold.
  destruct (unlock_write_body index commit w) as [d|] eqn:Hb; cbn [fst snd andb].
  - eapply run_two.
    + apply step_producer, unlock_write_load.
    + eapply step_producer, unlock_write_cas;
        [exact Hb | apply compare_exchange_weak_strong].
  - eapply run_two.
    + apply step_producer, unlock_write_load.
    + apply step_producer, unlock_write_break, Hb.
Qed.

Lemma solo_lock_read b p W R min_remains :
  0 <= min_remains < 2 ^ size_bits ->
  run {| shared := b; producer := p; consumer := C_idle;
         committed := W; consumed := R |}
      {| shared := {| rpwp_ := snd (lock_read (rpwp_ b) min_remains);
                      elements_ := elements_ b |};
         producer := p;
         consumer := (if fst (fst (lock_read (rpwp_ b) min_remains))
                      then C_locked (snd (fst (lock_read (rpwp_ b) min_remains)))
                      else C_idle);
         committed := W; consumed := R |}.
Proof.
  intros Hmr. destruct b as [w E]. cbn [rpwp_ elements_].
  rewrite lock_read_unfold.
  destruct (lock_read_body min_remains w) as [d|] eqn:Hb; cbn [fst snd].
  - eapply run_two.
    + apply step_consumer, lock_read_load, Hmr.
    + eapply step_consumer, lock_read_cas;
        [exact Hb | apply compare_exchange_weak_strong].
  - eapply run_two.
    + apply step_consumer, lock_read_load, Hmr.
    + apply step_consumer, lock_read_break, Hb.
Qed.

Lemma solo_unlock_read b p W R index commit v :
  run {| shared := b; producer := p; consumer := C_loaded index commit v;
         committed := W; consumed := R |}
      {| shared := {| rpwp_ := snd (unlock_read (rpwp_ b) index commit);
                      elements_ := elements_ b |};
         producer := p; consumer := C_idle;
         committed := W; consumed := R |}.
Proof.
  destruct b as [w E]. cbn [rpwp_ elements_].
  rewrite unlock_read_unfold.
  destruct (unlock_read_body index commit w) as [d|] eqn:Hb; cbn [fst snd].
  - eapply run_two.
    + apply step_consumer, unlock_read_load.
    + eapply step_consumer, unlock_read_cas;
        [exact Hb | apply compare_exchange_weak_strong].
  - eapply run_two.
    + apply step_consumer, unlock_read_load.
    + apply step_consumer, unlock_read_break, Hb.
Qed.

End Solo.

(** ** The instantiation [buffer4] *)

(** Scenario A: three committed write cycles fill the buffer; a fourth
    [lock_write] fails with the sentinel index. *)
Example scenario_A :
  write_all (cfg:=buffer4) [1; 2; 3] (lockfree_circulation_buffer example_init) =
    Some example_full /\
  full (cfg:=buffer4) (rpwp_ example_full) = true /\
  lock_write (cfg:=buffer4) (rpwp_ example_full) 0 =
    ((false, INVALID_INDEX), rpwp_ example_full).
Proof. repeat split; reflexivity. Qed.

(** Scenario B: one read, then a write that takes the last slot and wraps
    the write cursor to 0; the next three reads return 2, 3, 4. *)
Example scenario_B :
  exists b1 b2 b3,
    read_cycle (cfg:=buffer4) 0 true example_full = Some (1, b1) /\
    size (cfg:=buffer4) (rpwp_ b1) = 2 /\
    write_cycle (cfg:=buffer4) 0 true 4 b1 = Some b2 /\
    size (cfg:=buffer4) (rpwp_ b2) = 3 /\
    write_pointer (rpwp_ b2) = 0 /\
    read_n (cfg:=buffer4) 3 b2 = Some ([2; 3; 4], b3).
Proof. do 3 eexists. repeat split; reflexivity. Qed.

(** Scenario C: with one free slot, [lock_write(index, 1)] fails; with two
    it succeeds. *)
Example scenario_C :
  fst (fst (lock_write (cfg:=buffer4) 2 1)) = false /\
  fst (fst (lock_write (cfg:=buffer4) 1 1)) = true.
Proof. split; reflexivity. Qed.

(** The run that leads to [example_state]. *)
Lemma run_step_l {cfg : instantiation} {T : Type} (s1 s2 s3 : system T) :
  step s1 s2 -> run s2 s3 -> run s1 s3.
Proof.
  intros Hs Hr. induction Hr as [s|s2 s3 s4 _ IH Hs']; intros.
  - eapply run_step; [apply run_refl | exact Hs].
  - eapply run_step; [exact (IH Hs) | exact Hs'].
Qed.

Lemma example_run : run (cfg:=buffer4) (start example_init) example_state.
Proof.
  assert (Hsize : 0 <= 0 < 2 ^ size_bits (instantiation:=buffer4))
    by (simpl; lia).
  unfold start, example_state.
  eapply run_step_l.
  { apply step_producer, (lock_write_load _ _ 0 Hsize). }
  eapply run_step_l.
  { eapply step_producer, (lock_write_cas _ _ _ _ _ false); reflexivity. }
  eapply run_step_l.
  { apply step_producer, (slot_store _ _ _ true 7). }
  eapply run_step_l.
  { apply step_producer, unlock_write_load. }
  eapply run_step_l.
  { eapply step_producer, (unlock_write_cas _ _ _ _ _ _ _ false); reflexivity. }
  eapply run_step_l.
  { apply step_consumer, (lock_read_load _ _ 0 Hsize). }
  eapply run_step_l.
  { eapply step_consumer, (lock_read_cas _ _ _ _ _ false); reflexivity. }
  eapply run_step_l.
  { eapply step_consumer, (slot_load _ _ _ true 7). reflexivity. }
  apply run_refl.
Qed.

Lemma fifo_round_trip_witness :
  exists b1 b2,
    write_all (cfg:=buffer4) [10; 20; 30] (lockfree_circulation_buffer example_init) =
      Some b1 /\
    read_n (cfg:=buffer4) 3 b1 = Some ([10; 20; 30], b2).
Proof.
  apply (fifo_round_trip (cfg:=buffer4) eq_refl example_init [10; 20; 30]).
  - reflexivity.
  - simpl. lia.
Defined.

Lemma reservation_spec_witness :
  fst (fst (lock_write (cfg:=buffer4) 3 0)) = true <->
  is_write_locked 3 = false /\ 0 < free_count (cfg:=buffer4) 3.
Proof.
  exact (proj1 (proj1 (reservation_spec (cfg:=buffer4) eq_refl 3 0 0))).
Defined.

Lemma release_spec_witness :
  fst (unlock_write (cfg:=buffer4) 0x8003 3 true) = true <->
  3 = write_pointer 0x8003 /\ is_write_locked 0x8003 = true.
Proof.
  exact (proj1 (proj1 (release_spec (cfg:=buffer4) eq_refl 0x8003 3 true))).
Defined.

Lemma failure_leaves_state_witness :
  lock_write_body (cfg:=buffer4) 0 0x8000 = None /\
  snd (lock_write (cfg:=buffer4) 0x8000 0) = 0x8000.
Proof.
  exact (proj1 (failure_leaves_state (cfg:=buffer4) 0x8000 0 0 0 true) eq_refl).
Defined.

Lemma reachable_count_witness :
  0 <= count (cfg:=buffer4) (snd (lock_write (cfg:=buffer4) 0 0)) <= 4 - 1.
Proof.
  exact (proj1 (proj2 (proj2 (proj2
    (reachable_count (cfg:=buffer4) eq_refl _
       (reachable_lock_write 0 0 reachable_constructed)))))).
Defined.

Lemma try_clear_spec_witness :
  fst (try_clear 0x80000001) = false <->
  is_write_locked 0x80000001 = true \/ is_read_locked 0x80000001 = true.
Proof.
  exact (proj1 (try_clear_spec (cfg:=buffer4) eq_refl 0x80000001)).
Defined.

Lemma abort_is_noop_witness :
  rpwp_ (at_put (lockfree_circulation_buffer example_init) 0 99) = 0.
Proof.
  exact (proj1 (proj1
    (abort_is_noop (cfg:=buffer4) eq_refl
       (lockfree_circulation_buffer example_init) [(0, 99)] []
       reachable_constructed)
    (at_put (lockfree_circulation_buffer example_init) 0 99) eq_refl)).
Defined.

Lemma spsc_interleaving_witness :
  0 <= size (cfg:=buffer4) (rpwp_ (shared example_state)) <= 4 - 1 /\
  size (cfg:=buffer4) (rpwp_ (shared example_state)) =
    writes_done example_state - reads_done example_state /\
  consumed example_state `prefix_of` committed example_state.
Proof.
  exact (spsc_interleaving (cfg:=buffer4) eq_refl example_init example_state
           eq_refl example_run).
Defined.

Lemma prev_pointer_spec_witness :
  prev_pointer (cfg:=buffer4) 0 = 3 /\ prev_pointer (cfg:=buffer4) 2 = 1.
Proof.
  split.
  - apply (prev_pointer_spec (cfg:=buffer4) eq_refl 0). simpl. lia.
  - apply (prev_pointer_spec (cfg:=buffer4) eq_refl 2). simpl. lia.
Defined.

Lemma index_valid_witness :
  0 <= snd (fst (lock_write (cfg:=buffer4) 0 0)) < 4 /\
  snd (fst (lock_write (cfg:=buffer4) 0 0)) <> INVALID_INDEX.
Proof.
  exact (proj1 (proj2
    (index_valid (cfg:=buffer4) eq_refl 0 reachable_constructed)) 0 eq_refl).
Defined.

(** * Further properties of the state word *)

Section WordLayout.

(** X1. A 32-bit state word carries nothing but its four fields: two words
    are equal exactly when their cursors and lock bits are. *)
Theorem word_fields_determine (x y : Z) :
  uint32 x -> uint32 y ->
  (x = y <->
   write_pointer x = write_pointer y /\
   is_write_locked x = is_write_locked y /\
   read_pointer x = read_pointer y /\
   is_read_locked x = is_read_locked y).
Proof.
  intros Hx Hy. split.
  - intros ->. auto.
  - intros (H1 & H2 & H3 & H4). now apply fields_inj.
Qed.

(** X2. Each setter changes its own field and no other: after
    [mod_write_pointer] or [mod_read_pointer] with a cursor below 2^15 the
    cursor reads back, after [mod_write_locked] or [mod_read_locked] the
    bit reads back, the three other fields are as before and the word
    still fits 32 bits. *)
Theorem setters_update_one_field (x p : Z) (locked : bool) :
  uint32 x -> uint15 p ->
  (uint32 (mod_write_pointer x p) /\
   write_pointer (mod_write_pointer x p) = p /\
   is_write_locked (mod_write_pointer x p) = is_write_locked x /\
   read_pointer (mod_write_pointer x p) = read_pointer x /\
   is_read_locked (mod_write_pointer x p) = is_read_locked x) /\
  (uint32 (mod_read_pointer x p) /\
   read_pointer (mod_read_pointer x p) = p /\
   is_read_locked (mod_read_pointer x p) = is_read_locked x /\
   write_pointer (mod_read_pointer x p) = write_pointer x /\
   is_write_locked (mod_read_pointer x p) = is_write_locked x) /\
  (uint32 (mod_write_locked x locked) /\
   is_write_locked (mod_write_locked x locked) = locked /\
   write_pointer (mod_write_locked x locked) = write_pointer x /\
   read_pointer (mod_write_locked x locked) = read_pointer x /\
   is_read_locked (mod_write_locked x locked) = is_read_locked x) /\
  (uint32 (mod_read_locked x locked) /\
   is_read_locked (mod_read_locked x locked) = locked /\
   read_pointer (mod_read_locked x locked) = read_pointer x /\
   write_pointer (mod_read_locked x locked) = write_pointer x /\
   is_write_locked (mod_read_locked x locked) = is_write_locked x).
Proof.
  intros Hx Hp.
  rewrite write_pointer_mod_write_pointer, is_write_locked_mod_write_pointer,
    read_pointer_mod_write_pointer, is_read_locked_mod_write_pointer,
    read_pointer_mod_read_pointer, is_read_locked_mod_read_pointer,
    write_pointer_mod_read_pointer, is_write_locked_mod_read_pointer,
    is_write_locked_mod_write_locked, write_pointer_mod_write_locked,
    read_pointer_mod_write_locked, is_read_locked_mod_write_locked,
    is_read_locked_mod_read_locked, read_pointer_mod_read_locked,
    write_pointer_mod_read_locked, is_write_locked_mod_read_locked
    by assumption.
  repeat split; try reflexivity;
    first [ apply mod_write_pointer_uint32 | apply mod_read_pointer_uint32
          | apply mod_write_locked_uint32; assumption
          | apply mod_read_locked_uint32; assumption ].
Qed.

Lemma testbit_15_uint16 p : 0 <= p < 2 ^ 16 -> Z.testbit p 15 = (2 ^ 15 <=? p).
Proof.
  intros Hp. rewrite Z.testbit_eqb by lia.
  destruct (Z.leb_spec (2 ^ 15) p).
  - replace (p / 2 ^ 15) with 1; [reflexivity|].
    apply Z.div_unique with (p - 2 ^ 15); lia.
  - rewrite Z.div_small by lia. reflexivity.
Qed.

(** X3. The cursor setters do not mask their argument: bit 15 of a 16-bit
    cursor lands on the lock bit of the half it is stored into, and only
    the low 15 bits read back as the cursor. *)
Theorem setters_unmasked_cursor (x p : Z) :
  0 <= p < 2 ^ 16 ->
  (is_write_locked (mod_write_pointer x p) =
     is_write_locked x || (2 ^ 15 <=? p)) /\
  write_pointer (mod_write_pointer x p) = p mod 2 ^ 15 /\
  (is_read_locked (mod_read_pointer x p) =
     is_read_locked x || (2 ^ 15 <=? p)) /\
  read_pointer (mod_read_pointer x p) = p mod 2 ^ 15.
Proof.
  intros Hp. rewrite <- (testbit_15_uint16 p Hp).
  rewrite !is_write_locked_bit, !is_read_locked_bit,
    mod_write_pointer_bits, mod_read_pointer_bits by lia.
  split; [reflexivity|]. split; [|split; [reflexivity|]].
  - apply Z.bits_inj'. intros i Hi.
    rewrite write_pointer_bits, mod_write_pointer_bits,
      Z.testbit_mod_pow2 by lia.
    destruct (Z.ltb_spec i 15), (Z.ltb_spec i 32), (Z.leb_spec 15 i);
      simpl; try lia; reflexivity.
  - apply Z.bits_inj'. intros i Hi.
    rewrite read_pointer_bits, mod_read_pointer_bits,
      Z.testbit_mod_pow2 by lia.
    replace (i + 16 - 16) with i by lia.
    destruct (Z.ltb_spec i 15), (Z.ltb_spec (i + 16) 32),
      (Z.ltb_spec (i + 16) 16), (Z.eqb_spec (i + 16) 31);
      simpl; try lia; reflexivity.
Qed.

End WordLayout.

Lemma word_fields_determine_witness :
  Z.lor (Z.shiftl 1 16) 0x8003 = 0x18003.
Proof.
  apply (word_fields_determine (Z.lor (Z.shiftl 1 16) 0x8003) 0x18003).
  - unfold uint32. vm_compute. split; [discriminate | reflexivity].
  - unfold uint32. lia.
  - repeat split; reflexivity.
Defined.

Lemma setters_update_one_field_witness :
  write_pointer (mod_write_pointer 0x80038002 3) = 3 /\
  read_pointer (mod_write_pointer 0x80038002 3) = read_pointer 0x80038002.
Proof.
  assert (H32 : uint32 0x80038002) by (unfold uint32; lia).
  assert (H15 : uint15 3) by (unfold uint15; lia).
  pose proof (proj1 (setters_update_one_field 0x80038002 3 true H32 H15))
    as (_ & H1 & _ & H2 & _).
  exact (conj H1 H2).
Defined.

Lemma setters_unmasked_cursor_witness :
  is_write_locked (mod_write_pointer 0 0x8001) = true.
Proof.
  assert (H16 : 0 <= 0x8001 < 2 ^ 16) by lia.
  exact (proj1 (setters_unmasked_cursor 0 0x8001 H16)).
Defined.

(** * Further properties of the cursors and of the operations *)

Section CursorsAndOperations.

Context {cfg : instantiation} (cfg_ok : instantiable = true).

Lemma prev_pointer_value x :
  0 <= x < N -> prev_pointer x = if x =? 0 then N - 1 else x - 1.
Proof.
  intros Hx. pose proof (N_range cfg_ok) as HN.
  destruct (N_pow2 cfg_ok) as (k & Hk & HNk).
  unfold prev_pointer, u32, u16. destruct (Z.eqb_spec x 0) as [->|Hne].
  - change ((0 - 1) mod 2 ^ 32) with (2 ^ 32 - 1).
    rewrite (usize_small cfg_ok) by lia.
    replace ((2 ^ 32 - 1) mod N) with (N - 1); [apply Z.mod_small; lia|].
    apply Z.mod_unique with (2 ^ (32 - k) - 1); [lia|].
    rewrite HNk, Z.mul_sub_distr_l, <- Z.pow_add_r by lia.
    replace (k + (32 - k)) with 32 by lia. lia.
  - rewrite (Z.mod_small (x - 1)) by lia.
    rewrite (usize_small cfg_ok) by lia.
    rewrite (Z.mod_small (x - 1) N) by lia.
    apply Z.mod_small. lia.
Qed.

Lemma next_pointer_value x :
  0 <= x < N -> next_pointer x = if x =? N - 1 then 0 else x + 1.
Proof.
  intros Hx. pose proof (N_range cfg_ok) as HN.
  rewrite (next_pointer_spec cfg_ok) by lia.
  destruct (Z.eqb_spec x (N - 1)) as [->|Hne].
  - replace (N - 1 + 1) with N by lia. apply Z.mod_same. lia.
  - apply Z.mod_small. lia.
Qed.

Lemma next_pointer_iter x (k : nat) :
  0 <= x < N -> Nat.iter k next_pointer x = (x + Z.of_nat k) mod N.
Proof.
  intros Hx. pose proof (N_range cfg_ok) as HN.
  induction k as [|k IH].
  - simpl. rewrite Z.add_0_r. symmetry. apply Z.mod_small. lia.
  - simpl Nat.iter. rewrite IH.
    pose proof (Z.mod_pos_bound (x + Z.of_nat k) N).
    rewrite (next_pointer_spec cfg_ok) by lia.
    rewrite (mod_succ cfg_ok). f_equal. lia.
Qed.

(** X4. [next_pointer] sends every 16-bit value into the array; on an
    index it steps to the next one and wraps from [N - 1] to 0, so that
    [k] steps add [k] modulo [N] and [N] steps lead back to the start. *)
Theorem next_pointer_cycle :
  (forall x, 0 <= x < 2 ^ 16 -> 0 <= next_pointer x < N) /\
  (forall x, 0 <= x < N ->
     next_pointer x = if x =? N - 1 then 0 else x + 1) /\
  (forall x (k : nat), 0 <= x < N ->
     Nat.iter k next_pointer x = (x + Z.of_nat k) mod N) /\
  (forall x, 0 <= x < N -> Nat.iter (Z.to_nat N) next_pointer x = x).
Proof.
  pose proof (N_range cfg_ok) as HN.
  split; [exact (next_pointer_range cfg_ok)|].
  split; [exact next_pointer_value|].
  split; [exact next_pointer_iter|].
  intros x Hx. rewrite next_pointer_iter, Z2Nat.id by lia.
  symmetry. apply Z.mod_unique with 1; lia.
Qed.

(** X5. On the indices of the array [prev_pointer] and [next_pointer] are
    inverse to each other. *)
Theorem next_prev_inverse (x : Z) :
  0 <= x < N ->
  prev_pointer (next_pointer x) = x /\ next_pointer (prev_pointer x) = x.
Proof.
  intros Hx. pose proof (N_range cfg_ok) as HN. split.
  - rewrite next_pointer_value by assumption.
    destruct (Z.eqb_spec x (N - 1)).
    + rewrite prev_pointer_value by lia. simpl. lia.
    + rewrite prev_pointer_value by lia.
      destruct (Z.eqb_spec (x + 1) 0); lia.
  - rewrite prev_pointer_value by assumption.
    destruct (Z.eqb_spec x 0).
    + rewrite next_pointer_value by lia. rewrite Z.eqb_refl. lia.
    + rewrite next_pointer_value by lia.
      destruct (Z.eqb_spec (x - 1) (N - 1)); lia.
Qed.

(** X6. In a reachable state [empty] holds exactly when [size] is 0; then
    the buffer is not full, and [lock_read] fails for every [min_remains],
    returning the sentinel and leaving the word as it is. *)
Theorem empty_spec (rpwp : Z) :
  reachable rpwp ->
  (empty rpwp = true <-> size rpwp = 0) /\
  (empty rpwp = true -> full rpwp = false) /\
  (empty rpwp = true ->
   forall min_remains, 0 <= min_remains ->
     lock_read rpwp min_remains = ((false, INVALID_INDEX), rpwp)).
Proof.
  intros (Hu & Hw & Hr)%(reachable_well_formed cfg_ok).
  pose proof (N_range cfg_ok) as HN.
  pose proof (write_pointer_range rpwp) as [Hw0 _].
  pose proof (read_pointer_range rpwp) as [Hr0 _].
  assert (Hiff : empty rpwp = true <-> size rpwp = 0).
  { unfold empty, size. rewrite (count_spec cfg_ok) by assumption.
    rewrite Z.eqb_eq. split.
    - intros ->. rewrite Z.sub_diag. apply Z.mod_0_l. lia.
    - intros H0.
      destruct (Z.le_gt_cases (read_pointer rpwp) (write_pointer rpwp)).
      + rewrite Z.mod_small in H0 by lia. lia.
      + assert ((write_pointer rpwp - read_pointer rpwp) mod N =
                write_pointer rpwp - read_pointer rpwp + N) as E
          by (symmetry; apply Z.mod_unique with (-1); lia).
        lia. }
  split; [exact Hiff|]. split.
  - intros He%Hiff. unfold full. rewrite He, (capacity_spec cfg_ok).
    apply Z.eqb_neq. lia.
  - intros He%Hiff mr Hmr. rewrite lock_read_unfold.
    destruct (lock_read_body mr rpwp) as [d|] eqn:E; [|reflexivity].
    apply lock_read_body_Some in E as (_ & Hc & _).
    unfold size in He. lia.
Qed.

(** X7. In a reachable state [full] holds exactly when [size] is
    [N - 1], that is when the write cursor is one step behind the read
    cursor; then [lock_write] fails for every [min_free].  The free count
    and [size] always add up to [capacity]. *)
Theorem full_spec (rpwp : Z) :
  reachable rpwp ->
  (full rpwp = true <-> size rpwp = N - 1) /\
  (full rpwp = true <-> next_pointer (write_pointer rpwp) = read_pointer rpwp) /\
  (full rpwp = true ->
   forall min_free, 0 <= min_free ->
     lock_write rpwp min_free = ((false, INVALID_INDEX), rpwp)) /\
  size rpwp + free_count rpwp = capacity.
Proof.
  intros (Hu & Hw & Hr)%(reachable_well_formed cfg_ok).
  pose proof (N_range cfg_ok) as HN.
  pose proof (write_pointer_range rpwp) as [Hw0 _].
  pose proof (read_pointer_range rpwp) as [Hr0 _].
  pose proof (count_range cfg_ok rpwp Hw Hr) as Hc.
  assert (Hiff : full rpwp = true <-> size rpwp = N - 1).
  { unfold full. rewrite (capacity_spec cfg_ok). apply Z.eqb_eq. }
  split; [exact Hiff|]. split; [|split].
  - rewrite Hiff. unfold size.
    rewrite (count_spec cfg_ok), next_pointer_value by lia.
    destruct (Z.le_gt_cases (read_pointer rpwp) (write_pointer rpwp)).
    + rewrite Z.mod_small by lia.
      destruct (Z.eqb_spec (write_pointer rpwp) (N - 1)); lia.
    + assert ((write_pointer rpwp - read_pointer rpwp) mod N =
              write_pointer rpwp - read_pointer rpwp + N) as ->
        by (symmetry; apply Z.mod_unique with (-1); lia).
      destruct (Z.eqb_spec (write_pointer rpwp) (N - 1)); lia.
  - intros Hf%Hiff mf Hmf. rewrite lock_write_unfold.
    destruct (lock_write_body mf rpwp) as [d|] eqn:E; [|reflexivity].
    apply lock_write_body_Some in E as (_ & Hfree & _).
    rewrite (free_count_small cfg_ok) in Hfree by lia.
    unfold size in Hf. lia.
  - unfold size. rewrite (free_count_small cfg_ok), (capacity_spec cfg_ok) by lia.
    lia.
Qed.

(** X8. [clear] returns exactly when no lock is held: then its first
    [try_clear] succeeds and leaves an empty buffer with the write cursor
    and the lock bits as they were.  While a lock is held it does not
    return, whatever the number of attempts. *)
Theorem clear_spec (rpwp : Z) :
  (is_write_locked rpwp = false -> is_read_locked rpwp = false ->
   forall fuel,
     let rpwp' := mod_read_pointer rpwp (write_pointer rpwp) in
     clear (S fuel) rpwp = Some rpwp' /\
     read_pointer rpwp' = write_pointer rpwp /\
     write_pointer rpwp' = write_pointer rpwp /\
     is_write_locked rpwp' = false /\
     is_read_locked rpwp' = false /\
     size rpwp' = 0 /\
     empty rpwp' = true) /\
  (is_write_locked rpwp = true \/ is_read_locked rpwp = true ->
   forall fuel, clear fuel rpwp = None).
Proof.
  split.
  - intros Hw Hr fuel. cbv zeta.
    destruct (try_clear_fields rpwp) as (Hrp & Hwp & Hwl & Hrl).
    cbv zeta in Hrp, Hwp, Hwl, Hrl.
    assert (try_clear_body rpwp =
            Some (mod_read_pointer rpwp (write_pointer rpwp))) as Hb
      by (apply try_clear_body_Some; auto).
    split; [simpl; rewrite try_clear_unfold, Hb; reflexivity|].
    rewrite Hwl, Hrl. repeat split; try assumption.
    + unfold size, count. rewrite Hrp, Hwp, Z.leb_refl, Z.sub_diag.
      apply (usize_small cfg_ok). lia.
    + unfold empty. rewrite Hrp, Hwp. apply Z.eqb_refl.
  - intros Hl fuel.
    assert (try_clear_body rpwp = None) as Hb.
    { destruct (try_clear_body rpwp) as [d|] eqn:E; [|reflexivity].
      apply try_clear_body_Some in E as (Hw & Hr & _).
      destruct Hl; congruence. }
    induction fuel as [|fuel IH]; [reflexivity|].
    simpl. rewrite try_clear_unfold, Hb. exact IH.
Qed.

Lemma count_mod_write_locked w b : count (mod_write_locked w b) = count w.
Proof.
  unfold count.
  now rewrite write_pointer_mod_write_locked, read_pointer_mod_write_locked.
Qed.

Lemma count_mod_read_locked w b : count (mod_read_locked w b) = count w.
Proof.
  unfold count.
  now rewrite write_pointer_mod_read_locked, read_pointer_mod_read_locked.
Qed.

(** X9. While a write reservation is outstanding every further
    [lock_write] fails, whatever its [min_free] and the fill level, and so
    does [try_clear]; [lock_read] succeeds or fails as it would have
    without the reservation.  The same with the two sides exchanged. *)
Theorem second_lock_fails (rpwp min_free min_remains : Z) :
  (fst (fst (lock_write rpwp min_free)) = true ->
   let rpwp' := snd (lock_write rpwp min_free) in
   (forall min_free', lock_write rpwp' min_free' = ((false, INVALID_INDEX), rpwp')) /\
   try_clear rpwp' = (false, rpwp') /\
   (forall min_remains',
      fst (fst (lock_read rpwp' min_remains')) =
      fst (fst (lock_read rpwp min_remains')))) /\
  (fst (fst (lock_read rpwp min_remains)) = true ->
   let rpwp' := snd (lock_read rpwp min_remains) in
   (forall min_remains', lock_read rpwp' min_remains' = ((false, INVALID_INDEX), rpwp')) /\
   try_clear rpwp' = (false, rpwp') /\
   (forall min_free',
      fst (fst (lock_write rpwp' min_free')) =
      fst (fst (lock_write rpwp min_free')))).
Proof.
  split.
  - rewrite lock_write_unfold.
    destruct (lock_write_body min_free rpwp) as [d|] eqn:E; [|discriminate].
    apply lock_write_body_Some in E as (_ & _ & ->). intros _. cbn [fst snd].
    split; [|split].
    + intros mf'. rewrite lock_write_unfold. unfold lock_write_body.
      now rewrite is_write_locked_mod_write_locked.
    + rewrite try_clear_unfold. unfold try_clear_body.
      now rewrite is_write_locked_mod_write_locked.
    + intros mr'. rewrite !lock_read_unfold. unfold lock_read_body.
      rewrite is_read_locked_mod_write_locked, count_mod_write_locked.
      destruct (is_read_locked rpwp); [reflexivity|].
      destruct (negb (mr' <? count rpwp)); reflexivity.
  - rewrite lock_read_unfold.
    destruct (lock_read_body min_remains rpwp) as [d|] eqn:E; [|discriminate].
    apply lock_read_body_Some in E as (_ & _ & ->). intros _. cbn [fst snd].
    split; [|split].
    + intros mr'. rewrite lock_read_unfold. unfold lock_read_body.
      now rewrite is_read_locked_mod_read_locked.
    + rewrite try_clear_unfold. unfold try_clear_body.
      rewrite is_read_locked_mod_read_locked.
      now destruct (negb (is_write_locked (mod_read_locked rpwp true))).
    + intros mf'. rewrite !lock_write_unfold. unfold lock_write_body, free_count.
      rewrite is_write_locked_mod_read_locked, count_mod_read_locked.
      destruct (is_write_locked rpwp); [reflexivity|].
      destruct (negb (mf' <? _)); reflexivity.
Qed.

(** X10. An unlock consumes the reservation: after a successful
    [unlock_write] every further [unlock_write], with any index and either
    commit flag, fails and leaves the word as it is.  The same for
    [unlock_read]. *)
Theorem double_unlock_fails (rpwp index : Z) (commit : bool) :
  (fst (unlock_write rpwp index commit) = true ->
   forall index' commit',
     unlock_write (snd (unlock_write rpwp index commit)) index' commit' =
     (false, snd (unlock_write rpwp index commit))) /\
  (fst (unlock_read rpwp index commit) = true ->
   forall index' commit',
     unlock_read (snd (unlock_read rpwp index commit)) index' commit' =
     (false, snd (unlock_read rpwp index commit))).
Proof.
  split.
  - rewrite unlock_write_unfold.
    destruct (unlock_write_body index commit rpwp) as [d|] eqn:E; [|discriminate].
    apply unlock_write_body_Some in E as (_ & _ & ->). intros _ i' c'.
    cbn [fst snd].
    destruct (unlock_write_fields cfg_ok rpwp commit) as (_ & Hwl & _).
    cbv zeta in Hwl. rewrite unlock_write_unfold.
    destruct (unlock_write_body i' c' _) as [d'|] eqn:E'; [|reflexivity].
    apply unlock_write_body_Some in E' as (_ & Hl & _). congruence.
  - rewrite unlock_read_unfold.
    destruct (unlock_read_body index commit rpwp) as [d|] eqn:E; [|discriminate].
    apply unlock_read_body_Some in E as (_ & _ & ->). intros _ i' c'.
    cbn [fst snd].
    destruct (unlock_read_fields cfg_ok rpwp commit) as (_ & Hrl & _).
    cbv zeta in Hrl. rewrite unlock_read_unfold.
    destruct (unlock_read_body i' c' _) as [d'|] eqn:E'; [|reflexivity].
    apply unlock_read_body_Some in E' as (_ & Hl & _). congruence.
Qed.

(** X11. The unlock of the index that [lock_write] returned succeeds.  The
    next successful [lock_write] returns the following index,
    [(index + 1) mod N], after a commit and the same index after an abort.
    The same for [lock_read] and [unlock_read]. *)
Theorem reservation_indices_advance (rpwp min_free min_remains : Z) (commit : bool) :
  (fst (fst (lock_write rpwp min_free)) = true ->
   let index := snd (fst (lock_write rpwp min_free)) in
   let rpwp1 := snd (lock_write rpwp min_free) in
   fst (unlock_write rpwp1 index commit) = true /\
   forall min_free',
     fst (fst (lock_write (snd (unlock_write rpwp1 index commit)) min_free')) = true ->
     snd (fst (lock_write (snd (unlock_write rpwp1 index commit)) min_free')) =
     if commit then (index + 1) mod N else index) /\
  (fst (fst (lock_read rpwp min_remains)) = true ->
   let index := snd (fst (lock_read rpwp min_remains)) in
   let rpwp1 := snd (lock_read rpwp min_remains) in
   fst (unlock_read rpwp1 index commit) = true /\
   forall min_remains',
     fst (fst (lock_read (snd (unlock_read rpwp1 index commit)) min_remains')) = true ->
     snd (fst (lock_read (snd (unlock_read rpwp1 index commit)) min_remains')) =
     if commit then (index + 1) mod N else index).
Proof.
  split.
  - rewrite lock_write_unfold.
    destruct (lock_write_body min_free rpwp) as [d|] eqn:E; [|discriminate].
    apply lock_write_body_Some in E as (_ & _ & ->). intros _. cbn [fst snd].
    rewrite write_pointer_mod_write_locked, unlock_write_unfold,
      unlock_after_lock_write. cbn [fst snd].
    split; [reflexivity|]. intros mf'. rewrite lock_write_unfold.
    destruct (lock_write_body mf' _) as [d'|] eqn:E'; [|discriminate].
    apply lock_write_body_Some in E' as (_ & _ & ->). intros _. cbn [fst snd].
    rewrite write_pointer_mod_write_locked.
    destruct commit.
    + destruct (commit_write_word cfg_ok rpwp) as (_ & Hwp & _).
      cbv zeta in Hwp. rewrite Hwp.
      apply (next_pointer_spec cfg_ok), pointer_uint16, write_pointer_range.
    + now rewrite !write_pointer_mod_write_locked.
  - rewrite lock_read_unfold.
    destruct (lock_read_body min_remains rpwp) as [d|] eqn:E; [|discriminate].
    apply lock_read_body_Some in E as (_ & _ & ->). intros _. cbn [fst snd].
    rewrite read_pointer_mod_read_locked, unlock_read_unfold,
      unlock_after_lock_read. cbn [fst snd].
    split; [reflexivity|]. intros mr'. rewrite lock_read_unfold.
    destruct (lock_read_body mr' _) as [d'|] eqn:E'; [|discriminate].
    apply lock_read_body_Some in E' as (_ & _ & ->). intros _. cbn [fst snd].
    rewrite read_pointer_mod_read_locked.
    destruct commit.
    + destruct (commit_read_word cfg_ok rpwp) as (_ & Hrp & _).
      cbv zeta in Hrp. rewrite Hrp.
      apply (next_pointer_spec cfg_ok), pointer_uint16, read_pointer_range.
    + now rewrite !read_pointer_mod_read_locked.
Qed.

(** X12. Run by one thread, a compare-and-swap loop returns what its
    one-pass summary returns as soon as one compare-and-swap does not fail
    spuriously, however many did before; as long as all of them fail
    spuriously the loop is still running, unless its body breaks. *)
Theorem spurious_failures_are_harmless (body : Z -> option Z)
    (attempts : list bool) (rpwp : Z) :
  (In false attempts ->
   cas_loop_weak body attempts rpwp rpwp = Some (cas_loop body rpwp)) /\
  ((forall spurious, In spurious attempts -> spurious = true) ->
   cas_loop_weak body attempts rpwp rpwp =
   match body rpwp with
   | None => Some (None, rpwp)
   | Some _ => None
   end).
Proof.
  split; [apply cas_loop_weak_sequential|].
  destruct (body rpwp) as [d|] eqn:Hb.
  - induction attempts as [|spurious attempts IH]; intros Hall; simpl;
      rewrite Hb; [reflexivity|].
    rewrite (Hall spurious) by (left; reflexivity).
    unfold compare_exchange_weak. rewrite Z.eqb_refl. simpl.
    apply IH. intros s Hs. apply Hall. right. exact Hs.
  - intros _. destruct attempts; simpl; rewrite Hb; reflexivity.
Qed.

End CursorsAndOperations.

Lemma next_pointer_cycle_witness :
  Nat.iter 4 (next_pointer (cfg:=buffer4)) 2 = 2.
Proof.
  assert (H : 0 <= 2 < N (instantiation:=buffer4)) by (simpl; lia).
  exact (proj2 (proj2 (proj2 (next_pointer_cycle (cfg:=buffer4) eq_refl))) 2 H).
Defined.

Lemma next_prev_inverse_witness :
  prev_pointer (cfg:=buffer4) (next_pointer (cfg:=buffer4) 3) = 3 /\
  next_pointer (cfg:=buffer4) (prev_pointer (cfg:=buffer4) 0) = 0.
Proof.
  split.
  - apply (next_prev_inverse (cfg:=buffer4) eq_refl 3). simpl. lia.
  - apply (next_prev_inverse (cfg:=buffer4) eq_refl 0). simpl. lia.
Defined.

Lemma empty_spec_witness :
  empty 0 = true <-> size (cfg:=buffer4) 0 = 0.
Proof.
  exact (proj1 (empty_spec (cfg:=buffer4) eq_refl 0 reachable_constructed)).
Defined.

Lemma full_spec_witness :
  size (cfg:=buffer4) 0 + free_count (cfg:=buffer4) 0 = capacity (cfg:=buffer4).
Proof.
  exact (proj2 (proj2 (proj2
    (full_spec (cfg:=buffer4) eq_refl 0 reachable_constructed)))).
Defined.

Lemma clear_spec_witness :
  clear 5 0x8003 = None /\ clear 1 0 = Some 0.
Proof.
  pose proof (clear_spec (cfg:=buffer4) eq_refl 0x8003) as [_ Hspin].
  pose proof (clear_spec (cfg:=buffer4) eq_refl 0) as [Hdone _].
  exact (conj (Hspin (or_introl eq_refl) 5%nat)
              (proj1 (Hdone eq_refl eq_refl 0%nat))).
Defined.

Lemma double_unlock_fails_witness :
  unlock_write (cfg:=buffer4)
    (snd (unlock_write (cfg:=buffer4) 0x8003 3 true)) 0 true =
  (false, snd (unlock_write (cfg:=buffer4) 0x8003 3 true)).
Proof.
  exact (proj1 (double_unlock_fails (cfg:=buffer4) eq_refl 0x8003 3 true)
           eq_refl 0 true).
Defined.

Lemma reservation_indices_advance_witness :
  fst (unlock_write (cfg:=buffer4)
         (snd (lock_write (cfg:=buffer4) 1 0))
         (snd (fst (lock_write (cfg:=buffer4) 1 0))) true) = true.
Proof.
  exact (proj1 (proj1
    (reservation_indices_advance (cfg:=buffer4) eq_refl 1 0 0 true) eq_refl)).
Defined.

(** * The buffer as a bounded queue *)

Section Queue.

Context {cfg : instantiation} (cfg_ok : instantiable = true).
Context {T : Type}.

Implicit Types (b : buffer T) (q : list T).

Lemma write_pointer_from_count w :
  well_formed w -> write_pointer w = (read_pointer w + count w) mod N.
Proof.
  intros (_ & Hw & Hr). pose proof (N_range cfg_ok).
  pose proof (write_pointer_range w) as [? _].
  rewrite (count_spec cfg_ok), Z.add_mod_idemp_r by lia.
  replace (read_pointer w + (write_pointer w - read_pointer w))
    with (write_pointer w) by lia.
  symmetry. apply Z.mod_small. lia.
Qed.

Lemma count_after_commit_write w w' :
  well_formed w -> count w < N - 1 ->
  write_pointer w' = next_pointer (write_pointer w) ->
  read_pointer w' = read_pointer w ->
  count w' = count w + 1.
Proof.
  intros (_ & Hw & Hr) Hc Hwp Hrp. pose proof (N_range cfg_ok).
  pose proof (count_nonneg cfg_ok w).
  pose proof (write_pointer_range w) as [? _].
  assert (0 <= write_pointer w' < N) as [? ?]
    by (rewrite Hwp; apply (next_pointer_range cfg_ok); lia).
  rewrite (count_spec cfg_ok w') by lia.
  rewrite Hwp, Hrp, (next_pointer_spec cfg_ok) by lia.
  rewrite Zminus_mod_idemp_l.
  replace (write_pointer w + 1 - read_pointer w)
    with (write_pointer w - read_pointer w + 1) by lia.
  rewrite <- Zplus_mod_idemp_l, <- (count_spec cfg_ok) by assumption.
  apply Z.mod_small. lia.
Qed.

Lemma count_after_commit_read w w' :
  well_formed w -> 0 < count w ->
  read_pointer w' = next_pointer (read_pointer w) ->
  write_pointer w' = write_pointer w ->
  count w' = count w - 1.
Proof.
  intros (_ & Hw & Hr) Hc Hrp Hwp. pose proof (N_range cfg_ok).
  pose proof (count_range cfg_ok w Hw Hr).
  pose proof (read_pointer_range w) as [? _].
  assert (0 <= read_pointer w' < N) as [? ?]
    by (rewrite Hrp; apply (next_pointer_range cfg_ok); lia).
  rewrite (count_spec cfg_ok w') by lia.
  rewrite Hwp, Hrp, (next_pointer_spec cfg_ok) by lia.
  rewrite Zminus_mod_idemp_r.
  replace (write_pointer w - (read_pointer w + 1))
    with (write_pointer w - read_pointer w - 1) by lia.
  rewrite <- Zminus_mod_idemp_l, <- (count_spec cfg_ok) by assumption.
  apply Z.mod_small. lia.
Qed.

(** The slot under the write cursor is none of the slots of the queue. *)
Lemma live_slot_not_write_slot b q (j : nat) :
  holds b q -> (j < length q)%nat ->
  Z.to_nat (write_pointer (rpwp_ b)) <>
  Z.to_nat ((read_pointer (rpwp_ b) + Z.of_nat j) mod N).
Proof.
  intros (Hwf & _ & Hcnt & _) Hj. pose proof (N_range cfg_ok).
  pose proof Hwf as (_ & Hw & Hr).
  pose proof (count_range cfg_ok _ Hw Hr).
  rewrite (write_pointer_from_count _ Hwf).
  pose proof (mod_apart cfg_ok (read_pointer (rpwp_ b) + Z.of_nat j)
                (read_pointer (rpwp_ b) + count (rpwp_ b))) as Hne.
  pose proof (Z.mod_pos_bound (read_pointer (rpwp_ b) + Z.of_nat j) N).
  pose proof (Z.mod_pos_bound (read_pointer (rpwp_ b) + count (rpwp_ b)) N).
  lia.
Qed.

Lemma holds_fresh (init : list T) :
  length init = Z.to_nat N -> holds (lockfree_circulation_buffer init) [].
Proof.
  intros Hlen. unfold holds. cbn [lockfree_circulation_buffer rpwp_ elements_].
  split; [apply (well_formed_0 cfg_ok)|]. split; [assumption|].
  split; [reflexivity|]. intros j Hj. simpl in Hj. lia.
Qed.

Lemma write_cycle_holds min_free commit (v : T) b q :
  holds b q -> is_write_locked (rpwp_ b) = false -> 0 <= min_free ->
  (min_free < N - 1 - Z.of_nat (length q) ->
   exists b',
     write_cycle min_free commit v b = Some b' /\
     holds b' (if commit then q ++ [v] else q) /\
     is_write_locked (rpwp_ b') = false /\
     is_read_locked (rpwp_ b') = is_read_locked (rpwp_ b)) /\
  (~ min_free < N - 1 - Z.of_nat (length q) ->
   write_cycle min_free commit v b = None).
Proof.
  intros Hh Hl Hmf. pose proof (N_range cfg_ok) as HN.
  pose proof Hh as (Hwf & Hlen & Hcnt & Hq).
  pose proof Hwf as (Hu & Hw & Hr).
  pose proof (count_range cfg_ok _ Hw Hr) as Hc.
  pose proof (write_pointer_range (rpwp_ b)) as [Hw0 _].
  assert (Hfree : free_count (rpwp_ b) = N - 1 - Z.of_nat (length q))
    by (rewrite (free_count_small cfg_ok) by lia; lia).
  split.
  - intros Hroom.
    eexists. split; [|split; [|split]].
    + apply write_cycle_Some. split; [assumption|]. split; [lia|].
      eexists. split; [reflexivity|]. apply unlock_after_lock_write.
    + cbn [rpwp_ elements_]. destruct commit.
      * destruct (commit_write_word cfg_ok (rpwp_ b)) as (Hu' & Hwp & _ & Hrp & _).
        cbv zeta in Hu', Hwp, Hrp.
        set (w' := mod_write_locked _ false) in *. clearbody w'.
        assert (Hc' : count w' = count (rpwp_ b) + 1)
          by (apply count_after_commit_write; (assumption || lia)).
        unfold holds. cbn [rpwp_ elements_].
        split; [|split; [|split]].
        -- unfold well_formed. rewrite Hwp, Hrp.
           split; [assumption|]. split; [|assumption].
           apply (next_pointer_range cfg_ok). lia.
        -- now rewrite length_insert.
        -- rewrite length_app, Hc'. simpl length. lia.
        -- intros j Hj. rewrite length_app in Hj. simpl length in Hj.
           rewrite Hrp.
           destruct (Nat.eq_dec j (length q)) as [->|Hne].
           ++ rewrite Hcnt, <- (write_pointer_from_count _ Hwf).
              rewrite list_lookup_insert_eq by lia.
              now rewrite lookup_app_r, Nat.sub_diag by lia.
           ++ rewrite list_lookup_insert_ne
                by (apply (live_slot_not_write_slot b q); [assumption | lia]).
              rewrite lookup_app_l by lia. apply Hq. lia.
      * rewrite abort_write_word by assumption.
        unfold holds. cbn [rpwp_ elements_].
        split; [assumption|]. split; [now rewrite length_insert|].
        split; [assumption|]. intros j Hj.
        rewrite list_lookup_insert_ne
          by (apply (live_slot_not_write_slot b q); assumption).
        now apply Hq.
    + cbn [rpwp_]. destruct commit.
      * now destruct (commit_write_word cfg_ok (rpwp_ b)) as (_ & _ & ? & _).
      * now rewrite is_write_locked_mod_write_locked.
    + cbn [rpwp_]. destruct commit.
      * now destruct (commit_write_word cfg_ok (rpwp_ b)) as (_ & _ & _ & _ & ?).
      * now rewrite !is_read_locked_mod_write_locked.
  - intros Hroom.
    destruct (write_cycle min_free commit v b) as [b'|] eqn:E; [|reflexivity].
    apply write_cycle_Some in E as (_ & Hf & _). lia.
Qed.

Lemma read_cycle_holds min_remains commit b q :
  holds b q -> is_read_locked (rpwp_ b) = false -> 0 <= min_remains ->
  (min_remains < Z.of_nat (length q) ->
   exists v q' b',
     q = v :: q' /\
     read_cycle min_remains commit b = Some (v, b') /\
     holds b' (if commit then q' else q) /\
     is_read_locked (rpwp_ b') = false /\
     is_write_locked (rpwp_ b') = is_write_locked (rpwp_ b)) /\
  (~ min_remains < Z.of_nat (length q) ->
   read_cycle min_remains commit b = None).
Proof.
  intros Hh Hl Hmr. pose proof (N_range cfg_ok) as HN.
  pose proof Hh as (Hwf & Hlen & Hcnt & Hq).
  pose proof Hwf as (Hu & Hw & Hr).
  pose proof (read_pointer_range (rpwp_ b)) as [Hr0 _].
  split.
  - intros Hsome. destruct q as [|v q']; [simpl in Hsome; lia|].
    assert (Hv : elements_ b !! Z.to_nat (read_pointer (rpwp_ b)) = Some v).
    { specialize (Hq 0%nat). simpl in Hq.
      rewrite Z.add_0_r, Z.mod_small in Hq by lia. apply Hq. lia. }
    exists v, q'. eexists. split; [reflexivity|]. split; [|split; [|split]].
    + apply read_cycle_Some. split; [assumption|]. split; [lia|].
      split; [exact Hv|].
      eexists. split; [reflexivity|]. apply unlock_after_lock_read.
    + cbn [rpwp_ elements_]. destruct commit.
      * destruct (commit_read_word cfg_ok (rpwp_ b)) as (Hu' & Hrp & _ & Hwp & _).
        cbv zeta in Hu', Hwp, Hrp.
        set (w' := mod_read_locked _ false) in *. clearbody w'.
        assert (Hc' : count w' = count (rpwp_ b) - 1)
          by (apply count_after_commit_read; (assumption || lia)).
        unfold holds. cbn [rpwp_ elements_].
        split; [|split; [|split]].
        -- unfold well_formed. rewrite Hwp, Hrp.
           split; [assumption|]. split; [assumption|].
           apply (next_pointer_range cfg_ok). lia.
        -- assumption.
        -- rewrite Hc', <- Hcnt. simpl length. lia.
        -- intros j Hj. rewrite Hrp, (next_pointer_spec cfg_ok) by lia.
           rewrite Z.add_mod_idemp_l by lia.
           replace (read_pointer (rpwp_ b) + 1 + Z.of_nat j)
             with (read_pointer (rpwp_ b) + Z.of_nat (S j)) by lia.
           rewrite Hq by (simpl; lia). reflexivity.
      * rewrite abort_read_word by assumption. exact Hh.
    + cbn [rpwp_]. destruct commit.
      * now destruct (commit_read_word cfg_ok (rpwp_ b)) as (_ & _ & ? & _).
      * now rewrite is_read_locked_mod_read_locked.
    + cbn [rpwp_]. destruct commit.
      * now destruct (commit_read_word cfg_ok (rpwp_ b)) as (_ & _ & _ & _ & ?).
      * now rewrite !is_write_locked_mod_read_locked.
  - intros Hnone.
    destruct (read_cycle min_remains commit b) as [[v b']|] eqn:E; [|reflexivity].
    apply read_cycle_Some in E as (_ & Hc & _). lia.
Qed.

Lemma try_clear_holds b q :
  holds b q ->
  is_write_locked (rpwp_ b) = false -> is_read_locked (rpwp_ b) = false ->
  exists w',
    try_clear (rpwp_ b) = (true, w') /\
    holds {| rpwp_ := w'; elements_ := elements_ b |} [] /\
    is_write_locked w' = false /\ is_read_locked w' = false.
Proof.
  intros (Hwf & Hlen & _ & _) Hwl Hrl. pose proof Hwf as (_ & Hw & _).
  destruct (try_clear_fields (rpwp_ b)) as (Frp & Fwp & Fwl & Frl).
  cbv zeta in Frp, Fwp, Fwl, Frl.
  exists (mod_read_pointer (rpwp_ b) (write_pointer (rpwp_ b))).
  split; [|split; [|split; congruence]].
  - rewrite try_clear_unfold.
    erewrite (proj2 (try_clear_body_Some _ _)); [reflexivity|auto].
  - unfold holds. cbn [rpwp_ elements_].
    split; [|split; [assumption|split]].
    + unfold well_formed. rewrite Fwp, Frp.
      auto using mod_read_pointer_uint32.
    + unfold count. rewrite Frp, Fwp, Z.leb_refl, Z.sub_diag.
      change (Z.of_nat (length (@nil T))) with 0.
      symmetry. apply (usize_small cfg_ok). lia.
    + intros j Hj. simpl in Hj. lia.
Qed.

(** X13. On a buffer that holds the queue [q] and is not write-locked, a
    write cycle with a [size_t] argument [min_free] succeeds exactly when
    [min_free < (N - 1) - length q].  Committed, it leaves the buffer
    holding [q ++ [v]], also when the write cursor wraps; aborted, it
    leaves it holding [q].  In both cases the write lock is released and
    the read lock untouched. *)
Theorem write_cycle_queue (min_free : Z) (commit : bool) (v : T) b q :
  holds b q -> is_write_locked (rpwp_ b) = false -> 0 <= min_free ->
  (is_Some (write_cycle min_free commit v b) <->
   min_free < N - 1 - Z.of_nat (length q)) /\
  (forall b', write_cycle min_free commit v b = Some b' ->
     holds b' (if commit then q ++ [v] else q) /\
     is_write_locked (rpwp_ b') = false /\
     is_read_locked (rpwp_ b') = is_read_locked (rpwp_ b)).
Proof.
  intros Hh Hl Hmf.
  destruct (write_cycle_holds min_free commit v b q Hh Hl Hmf) as [Hyes Hno].
  destruct (Z.lt_ge_cases min_free (N - 1 - Z.of_nat (length q))) as [Hlt|Hge].
  - destruct (Hyes Hlt) as (b1 & E & H1). rewrite E. split.
    + split; [intros _; assumption | intros _; eauto].
    + intros b' [= <-]. exact H1.
  - rewrite Hno by lia. split.
    + split; [intros [? ?]; discriminate | lia].
    + discriminate.
Qed.

(** X14. On a buffer that holds the queue [q] and is not read-locked, a
    read cycle with a [size_t] argument [min_remains] succeeds exactly
    when [min_remains < length q].  It returns the oldest value of [q];
    committed, it leaves the buffer holding the rest of [q], also when the
    read cursor wraps; aborted, it leaves it holding [q]. *)
Theorem read_cycle_queue (min_remains : Z) (commit : bool) b q :
  holds b q -> is_read_locked (rpwp_ b) = false -> 0 <= min_remains ->
  (is_Some (read_cycle min_remains commit b) <->
   min_remains < Z.of_nat (length q)) /\
  (forall v b', read_cycle min_remains commit b = Some (v, b') ->
     head q = Some v /\
     holds b' (if commit then tail q else q) /\
     is_read_locked (rpwp_ b') = false /\
     is_write_locked (rpwp_ b') = is_write_locked (rpwp_ b)).
Proof.
  intros Hh Hl Hmr.
  destruct (read_cycle_holds min_remains commit b q Hh Hl Hmr) as [Hyes Hno].
  destruct (Z.lt_ge_cases min_remains (Z.of_nat (length q))) as [Hlt|Hge].
  - destruct (Hyes Hlt) as (v1 & q1 & b1 & -> & E & H1). rewrite E. split.
    + split; [intros _; assumption | intros _; eauto].
    + intros v b' [= <- <-]. split; [reflexivity|]. exact H1.
  - rewrite Hno by lia. split.
    + split; [intros [? ?]; discriminate | lia].
    + discriminate.
Qed.

Lemma write_all_holds vs : forall b q,
  holds b q -> is_write_locked (rpwp_ b) = false ->
  (Z.of_nat (length q) + Z.of_nat (length vs) <= N - 1 ->
   exists b', write_all vs b = Some b' /\ holds b' (q ++ vs)) /\
  (N - 1 < Z.of_nat (length q) + Z.of_nat (length vs) ->
   write_all vs b = None).
Proof.
  induction vs as [|v vs IH]; intros b q Hh Hl.
  - simpl. rewrite app_nil_r. split; [eauto|].
    destruct Hh as ((_ & Hw & Hr) & _ & Hcnt & _).
    pose proof (count_range cfg_ok _ Hw Hr). lia.
  - simpl length. rewrite Nat2Z.inj_succ. simpl write_all.
    destruct (write_cycle_holds 0 true v b q Hh Hl ltac:(lia)) as [Hyes Hno].
    destruct (Z.lt_ge_cases 0 (N - 1 - Z.of_nat (length q))) as [Hlt|Hge].
    + destruct (Hyes Hlt) as (b1 & -> & Hh1 & Hl1 & _).
      destruct (IH b1 (q ++ [v]) Hh1 Hl1) as [IHyes IHno].
      rewrite length_app in IHyes, IHno. simpl length in IHyes, IHno.
      rewrite <- app_assoc in IHyes. simpl in IHyes.
      split; intros H; [apply IHyes | apply IHno]; lia.
    + rewrite Hno by lia. split; [lia | reflexivity].
Qed.

(** X15. The usable capacity is exactly [N - 1]: committed write cycles
    into a freshly constructed buffer all succeed exactly when there are
    at most [N - 1] of them.  The buffer then holds the values written, in
    order, [size] is their number, and [full] holds exactly at [N - 1]. *)
Theorem capacity_is_tight (init vs : list T) :
  length init = Z.to_nat N ->
  (is_Some (write_all vs (lockfree_circulation_buffer init)) <->
   Z.of_nat (length vs) <= N - 1) /\
  (forall b', write_all vs (lockfree_circulation_buffer init) = Some b' ->
     holds b' vs /\
     size (rpwp_ b') = Z.of_nat (length vs) /\
     (full (rpwp_ b') = true <-> Z.of_nat (length vs) = N - 1)).
Proof.
  intros Hlen.
  destruct (write_all_holds vs _ [] (holds_fresh init Hlen) eq_refl)
    as [Hyes Hno]. simpl in Hyes, Hno.
  destruct (Z.le_gt_cases (Z.of_nat (length vs)) (N - 1)) as [Hle|Hgt].
  - destruct (Hyes Hle) as (b1 & E & Hh). rewrite E. split.
    + split; [intros _; assumption | intros _; eauto].
    + intros b' [= <-]. split; [exact Hh|].
      destruct Hh as (_ & _ & Hcnt & _). unfold full, size.
      rewrite (capacity_spec cfg_ok), <- Hcnt.
      split; [reflexivity | apply Z.eqb_eq].
  - rewrite Hno by lia. split.
    + split; [intros [? ?]; discriminate | lia].
    + discriminate.
Qed.

Lemma perform_refines (c : call T) b q :
  holds b q ->
  is_write_locked (rpwp_ b) = false -> is_read_locked (rpwp_ b) = false ->
  call_args_ok c ->
  fst (perform c b) = fst (queue_call c q) /\
  holds (snd (perform c b)) (snd (queue_call c q)) /\
  is_write_locked (rpwp_ (snd (perform c b))) = false /\
  is_read_locked (rpwp_ (snd (perform c b))) = false.
Proof.
  intros Hh Hwl Hrl Hok. destruct c as [mf commit v|mr commit|]; simpl in Hok.
  - destruct (write_cycle_holds mf commit v b q Hh Hwl Hok) as [Hyes Hno].
    unfold perform, queue_call.
    destruct (Z.ltb_spec mf (N - 1 - Z.of_nat (length q))) as [Hlt|Hge].
    + destruct (Hyes Hlt) as (b1 & -> & Hh1 & Hl1 & Hr1). cbn [fst snd].
      split; [reflexivity|]. split; [assumption|]. split; congruence.
    + rewrite Hno by lia. cbn [fst snd]. auto.
  - destruct (read_cycle_holds mr commit b q Hh Hrl Hok) as [Hyes Hno].
    unfold perform, queue_call.
    destruct q as [|v q'].
    + rewrite Hno by (simpl; lia). cbn [fst snd]. auto.
    + destruct (Z.ltb_spec mr (Z.of_nat (length (v :: q')))) as [Hlt|Hge].
      * destruct (Hyes Hlt) as (v1 & q1 & b1 & [= <- <-] & -> & Hh1 & Hr1 & Hl1).
        cbn [fst snd]. split; [reflexivity|]. split; [assumption|]. split; congruence.
      * rewrite Hno by lia. cbn [fst snd]. auto.
  - unfold perform, queue_call.
    destruct (try_clear_holds b q Hh Hwl Hrl) as (w' & -> & Hh1 & Hl1 & Hr1).
    cbn [fst snd rpwp_]. auto.
Qed.

(** X16. Any sequence of write cycles, read cycles and [try_clear] calls
    of one caller, started on an unlocked buffer that holds [q], reports
    what the same calls report on a list used as a first-in first-out
    queue of at most [N - 1] values, and ends unlocked, holding the final
    queue. *)
Theorem calls_refine_queue (cs : list (call T)) : forall b q,
  holds b q ->
  is_write_locked (rpwp_ b) = false -> is_read_locked (rpwp_ b) = false ->
  Forall call_args_ok cs ->
  fst (perform_all cs b) = fst (queue_all cs q) /\
  holds (snd (perform_all cs b)) (snd (queue_all cs q)) /\
  is_write_locked (rpwp_ (snd (perform_all cs b))) = false /\
  is_read_locked (rpwp_ (snd (perform_all cs b))) = false.
Proof.
  induction cs as [|c cs IH]; intros b q Hh Hwl Hrl Hok; [simpl; auto|].
  apply Forall_cons in Hok as [Hc Hcs].
  destruct (perform_refines c b q Hh Hwl Hrl Hc) as (Hr & Hh1 & Hwl1 & Hrl1).
  simpl perform_all. simpl queue_all.
  destruct (perform c b) as [r b1], (queue_call c q) as [r' q1].
  cbn [fst snd] in Hr, Hh1, Hwl1, Hrl1. subst r'.
  destruct (IH b1 q1 Hh1 Hwl1 Hrl1 Hcs) as (Hrs & Hh2 & Hwl2 & Hrl2).
  destruct (perform_all cs b1) as [rs b2], (queue_all cs q1) as [rs' q2].
  cbn [fst snd] in *. subst rs'. auto.
Qed.

End Queue.

Lemma example_wrapped_holds : holds (cfg:=buffer4) example_wrapped [10; 20].
Proof.
  unfold holds, well_formed, uint32. repeat split; try reflexivity.
  - vm_compute. discriminate.
  - intros [|[|j]] Hj; simpl in Hj; try reflexivity. lia.
Qed.

Lemma write_cycle_queue_witness :
  holds (cfg:=buffer4) example_appended [10; 20; 30] /\
  is_write_locked (rpwp_ example_appended) = false /\
  is_read_locked (rpwp_ example_appended) = is_read_locked (rpwp_ example_wrapped).
Proof.
  assert (H0 : 0 <= 0) by lia.
  exact (proj2 (write_cycle_queue (cfg:=buffer4) eq_refl 0 true 30
                  example_wrapped [10; 20] example_wrapped_holds eq_refl H0)
           example_appended eq_refl).
Defined.

Lemma read_cycle_queue_witness :
  head [10; 20] = Some 10 /\
  holds (cfg:=buffer4) example_popped [20] /\
  is_read_locked (rpwp_ example_popped) = false /\
  is_write_locked (rpwp_ example_popped) = is_write_locked (rpwp_ example_wrapped).
Proof.
  assert (H0 : 0 <= 0) by lia.
  exact (proj2 (read_cycle_queue (cfg:=buffer4) eq_refl 0 true
                  example_wrapped [10; 20] example_wrapped_holds eq_refl H0)
           10 example_popped eq_refl).
Defined.

Lemma capacity_is_tight_witness :
  is_Some (write_all (cfg:=buffer4) [1; 2; 3; 4]
             (lockfree_circulation_buffer example_init)) <->
  Z.of_nat (length [1; 2; 3; 4]) <= N (instantiation:=buffer4) - 1.
Proof.
  exact (proj1 (capacity_is_tight (cfg:=buffer4) eq_refl example_init
                  [1; 2; 3; 4] eq_refl)).
Defined.

Lemma call_args_ok_example : Forall call_args_ok example_calls.
Proof. repeat constructor; simpl; lia. Qed.

Lemma calls_refine_queue_witness :
  fst (perform_all (cfg:=buffer4) example_calls example_wrapped) =
  [succeeded; value 10; value 20; value 30; failed].
Proof.
  exact (proj1 (calls_refine_queue (cfg:=buffer4) eq_refl example_calls
                  example_wrapped [10; 20] example_wrapped_holds
                  eq_refl eq_refl call_args_ok_example)).
Defined.

(** * Further properties of the interleaved runs *)

Section Reservations.

Context {cfg : instantiation} (cfg_ok : instantiable = true).
Context {T : Type}.

Implicit Types (s : system T).

Lemma run_system_inv (init : list T) s :
  length init = Z.to_nat N -> run (start init) s -> system_inv s.
Proof.
  intros Hlen Hrun. eapply (run_inv cfg_ok); [|exact Hrun].
  now apply (start_inv cfg_ok).
Qed.

(** X17. Under any interleaving, the unlock of a thread that holds a
    reservation never takes the [break] branch: each time its loop
    evaluates the body, on whatever word it has just observed, the index
    matches and the lock bit is set, whatever the other thread has done in
    between. *)
Theorem holder_unlock_succeeds (init : list T) s :
  length init = Z.to_nat N ->
  run (start init) s ->
  (forall index commit v expected,
     producer s = P_unlock_write index commit v expected ->
     is_Some (unlock_write_body index commit expected)) /\
  (forall index commit v expected,
     consumer s = C_unlock_read index commit v expected ->
     is_Some (unlock_read_body index commit expected)).
Proof.
  intros Hlen Hrun.
  destruct (run_system_inv init s Hlen Hrun) as (_ & _ & _ & _ & _ & _ & _ & _ & HP & HC).
  split.
  - intros i c v e Hp. unfold producer_inv in HP. rewrite Hp in HP.
    destruct HP as (_ & -> & _ & _ & He & Hel).
    eexists. apply unlock_write_body_Some. eauto.
  - intros i c v e Hc. unfold consumer_inv in HC. rewrite Hc in HC.
    destruct HC as (_ & -> & _ & He & Hel).
    eexists. apply unlock_read_body_Some. eauto.
Qed.

(** X18. Under any interleaving, the write-lock bit is set exactly while
    the producer holds a reservation and the read-lock bit exactly while
    the consumer does; a reserved index is the cursor of its side and an
    index of the array; and when both threads hold a reservation their
    indices differ, so the two threads never access the same slot. *)
Theorem reservations_exclusive (init : list T) s :
  length init = Z.to_nat N ->
  run (start init) s ->
  (is_write_locked (rpwp_ (shared s)) = true <->
   is_Some (producer_index (producer s))) /\
  (is_read_locked (rpwp_ (shared s)) = true <->
   is_Some (consumer_index (consumer s))) /\
  (forall i, producer_index (producer s) = Some i ->
     i = write_pointer (rpwp_ (shared s)) /\ 0 <= i < N) /\
  (forall j, consumer_index (consumer s) = Some j ->
     j = read_pointer (rpwp_ (shared s)) /\ 0 <= j < N) /\
  (forall i j, producer_index (producer s) = Some i ->
     consumer_index (consumer s) = Some j -> i <> j).
Proof.
  intros Hlen Hrun. pose proof (N_range cfg_ok) as HN.
  destruct (run_system_inv init s Hlen Hrun)
    as (_ & Hwp & Hrp & Hrw & Hcap & _ & _ & _ & HP & HC).
  pose proof (Z.mod_pos_bound (writes_done s) N) as Hwb.
  pose proof (Z.mod_pos_bound (reads_done s) N) as Hrb.
  assert (HPi : forall i, producer_index (producer s) = Some i ->
            is_write_locked (rpwp_ (shared s)) = true /\
            i = write_pointer (rpwp_ (shared s)) /\
            writes_done s - reads_done s <= N - 2).
  { intros i Hi. unfold producer_inv in HP.
    destruct (producer s); simpl in Hi; try discriminate;
      injection Hi as <-; tauto. }
  assert (HCj : forall j, consumer_index (consumer s) = Some j ->
            is_read_locked (rpwp_ (shared s)) = true /\
            j = read_pointer (rpwp_ (shared s)) /\
            reads_done s < writes_done s).
  { intros j Hj. unfold consumer_inv in HC.
    destruct (consumer s); simpl in Hj; try discriminate;
      injection Hj as <-; tauto. }
  split; [|split; [|split; [|split]]].
  - split.
    + intros Hl. unfold producer_inv in HP.
      destruct (producer s); simpl; eauto;
        [congruence | destruct HP; congruence].
    + intros [i Hi]. now destruct (HPi i Hi).
  - split.
    + intros Hl. unfold consumer_inv in HC.
      destruct (consumer s); simpl; eauto;
        [congruence | destruct HC; congruence].
    + intros [j Hj]. now destruct (HCj j Hj).
  - intros i Hi. destruct (HPi i Hi) as (_ & -> & _). split; [reflexivity|].
    rewrite Hwp. lia.
  - intros j Hj. destruct (HCj j Hj) as (_ & -> & _). split; [reflexivity|].
    rewrite Hrp. lia.
  - intros i j Hi Hj.
    destruct (HPi i Hi) as (_ & -> & Hroom).
    destruct (HCj j Hj) as (_ & -> & Hlt).
    rewrite Hwp, Hrp. intros Heq. symmetry in Heq. revert Heq.
    apply (mod_apart cfg_ok). lia.
Qed.

(** X19. Under any interleaving, the slot a consumer has reserved and not
    yet loaded holds the oldest committed value that has not been read,
    and the slot a producer has written still holds the value it stored
    when it unlocks. *)
Theorem reserved_slots_keep_values (init : list T) s :
  length init = Z.to_nat N ->
  run (start init) s ->
  (forall index, consumer s = C_locked index ->
     exists v, at_ (shared s) index = Some v /\
               committed s !! length (consumed s) = Some v) /\
  (forall index commit v,
     producer s = P_stored index commit v \/
     (exists expected, producer s = P_unlock_write index commit v expected) ->
     at_ (shared s) index = Some v).
Proof.
  intros Hlen Hrun. pose proof (N_range cfg_ok) as HN.
  destruct (run_system_inv init s Hlen Hrun)
    as (_ & _ & Hrp & Hrw & _ & Hsto & _ & _ & HP & HC).
  split.
  - intros j Hc. unfold consumer_inv in HC. unfold reads_done in *.
    rewrite Hc in *. simpl pending in *. rewrite Z.sub_0_r in *.
    destruct HC as (_ & -> & Hlt). unfold writes_done in *.
    destruct (lookup_lt_is_Some_2 (committed s) (length (consumed s)))
      as [v Hv]; [lia|].
    exists v. split; [|exact Hv].
    unfold at_. rewrite Hrp, Hsto by lia. exact Hv.
  - intros i c v Hp. unfold producer_inv in HP. unfold at_.
    destruct Hp as [Hp|[e Hp]]; rewrite Hp in HP; tauto.
Qed.

End Reservations.

(** The run that leads to [example_contended]. *)
Lemma example_run_contended :
  run (cfg:=buffer4) (start example_init) example_contended.
Proof.
  assert (Hsize : 0 <= 0 < 2 ^ size_bits (instantiation:=buffer4))
    by (simpl; lia).
  unfold start, example_contended.
  eapply run_step_l.
  { apply step_producer, (lock_write_load _ _ 0 Hsize). }
  eapply run_step_l.
  { eapply step_producer, (lock_write_cas _ _ _ _ _ false); reflexivity. }
  eapply run_step_l.
  { apply step_producer, (slot_store _ _ _ true 7). }
  eapply run_step_l.
  { apply step_producer, unlock_write_load. }
  eapply run_step_l.
  { eapply step_producer, (unlock_write_cas _ _ _ _ _ _ _ false); reflexivity. }
  eapply run_step_l.
  { apply step_consumer, (lock_read_load _ _ 0 Hsize). }
  eapply run_step_l.
  { eapply step_consumer, (lock_read_cas _ _ _ _ _ false); reflexivity. }
  eapply run_step_l.
  { apply step_producer, (lock_write_load _ _ 0 Hsize). }
  eapply run_step_l.
  { eapply step_producer, (lock_write_cas _ _ _ _ _ false); reflexivity. }
  eapply run_step_l.
  { apply step_producer, (slot_store _ _ _ true 8). }
  eapply run_step_l.
  { apply step_producer, unlock_write_load. }
  apply run_refl.
Qed.

Lemma holder_unlock_succeeds_witness :
  is_Some (unlock_write_body (cfg:=buffer4) 1 true 0x80008001).
Proof.
  exact (proj1 (holder_unlock_succeeds (cfg:=buffer4) eq_refl example_init
                  example_contended eq_refl example_run_contended)
           1 true 8 0x80008001 eq_refl).
Defined.

Lemma reservations_exclusive_witness :
  (1 = write_pointer (rpwp_ (shared example_contended)) /\
   0 <= 1 < N (instantiation:=buffer4)) /\
  1 <> 0.
Proof.
  pose proof (reservations_exclusive (cfg:=buffer4) eq_refl example_init
                example_contended eq_refl example_run_contended)
    as (_ & _ & Hp & _ & Hne).
  exact (conj (Hp 1 eq_refl) (Hne 1 0 eq_refl eq_refl)).
Defined.

Lemma reserved_slots_keep_values_witness :
  (exists v, at_ (shared example_contended) 0 = Some v /\
             committed example_contended !! length (consumed example_contended) =
             Some v) /\
  at_ (shared example_contended) 1 = Some 8.
Proof.
  pose proof (reserved_slots_keep_values (cfg:=buffer4) eq_refl example_init
                example_contended eq_refl example_run_contended)
    as [Hc Hp].
  exact (conj (Hc 0 eq_refl)
              (Hp 1 true 8 (or_intror (ex_intro _ 0x80008001 eq_refl)))).
Defined.

Section Halves.

Context {cfg : instantiation} (cfg_ok : instantiable = true).
Context {T : Type}.

(** X20. Each thread changes only its own half of the shared state: a
    step of the producer leaves the read cursor and the read-lock bit as
    they are and touches no slot but the one it has reserved; a step of
    the consumer leaves the write cursor, the write-lock bit and every
    slot as they are. *)
Theorem threads_change_own_half :
  (forall (b : buffer T) p W b' p' W',
     producer_step b p W b' p' W' ->
     read_pointer (rpwp_ b') = read_pointer (rpwp_ b) /\
     is_read_locked (rpwp_ b') = is_read_locked (rpwp_ b) /\
     (elements_ b' = elements_ b \/
      exists index v,
        p = P_locked index /\
        elements_ b' = <[Z.to_nat index := v]> (elements_ b))) /\
  (forall (b : buffer T) c R b' c' R',
     consumer_step b c R b' c' R' ->
     write_pointer (rpwp_ b') = write_pointer (rpwp_ b) /\
     is_write_locked (rpwp_ b') = is_write_locked (rpwp_ b) /\
     elements_ b' = elements_ b).
Proof.
  split.
  - intros b p W b' p' W' Hstep.
    inversion Hstep; subst; cbn [rpwp_ elements_ at_put]; auto;
      try (match goal with H : compare_exchange_weak _ _ _ _ = (false, _, _) |- _ =>
             apply compare_exchange_weak_false in H as [-> ->]; auto end).
    + match goal with H : compare_exchange_weak _ _ _ _ = _ |- _ =>
        apply compare_exchange_weak_true in H as [<- ->] end.
      match goal with H : lock_write_body _ _ = Some _ |- _ =>
        apply lock_write_body_Some in H as (_ & _ & ->) end.
      rewrite read_pointer_mod_write_locked, is_read_locked_mod_write_locked.
      auto.
    + eauto 10.
    + match goal with H : compare_exchange_weak _ _ _ _ = _ |- _ =>
        apply compare_exchange_weak_true in H as [<- ->] end.
      match goal with H : unlock_write_body _ _ _ = Some _ |- _ =>
        apply unlock_write_body_Some in H as (_ & _ & ->) end.
      destruct (unlock_write_fields cfg_ok (rpwp_ b) commit) as (_ & _ & ? & ?).
      auto.
  - intros b c R b' c' R' Hstep.
    inversion Hstep; subst; cbn [rpwp_ elements_]; auto;
      try (match goal with H : compare_exchange_weak _ _ _ _ = (false, _, _) |- _ =>
             apply compare_exchange_weak_false in H as [-> ->]; auto end).
    + match goal with H : compare_exchange_weak _ _ _ _ = _ |- _ =>
        apply compare_exchange_weak_true in H as [<- ->] end.
      match goal with H : lock_read_body _ _ = Some _ |- _ =>
        apply lock_read_body_Some in H as (_ & _ & ->) end.
      rewrite write_pointer_mod_read_locked, is_write_locked_mod_read_locked.
      auto.
    + match goal with H : compare_exchange_weak _ _ _ _ = _ |- _ =>
        apply compare_exchange_weak_true in H as [<- ->] end.
      match goal with H : unlock_read_body _ _ _ = Some _ |- _ =>
        apply unlock_read_body_Some in H as (_ & _ & ->) end.
      destruct (unlock_read_fields cfg_ok (rpwp_ b) commit) as (_ & _ & ? & ?).
      auto.
Qed.



End Halves.

Lemma threads_change_own_half_witness :
  (forall (b : buffer Z) p W b' p' W',
     producer_step (cfg:=buffer4) b p W b' p' W' ->
     read_pointer (rpwp_ b') = read_pointer (rpwp_ b) /\
     is_read_locked (rpwp_ b') = is_read_locked (rpwp_ b) /\
     (elements_ b' = elements_ b \/
      exists index v,
        p = P_locked index /\
        elements_ b' = <[Z.to_nat index := v]> (elements_ b))) /\
  (forall (b : buffer Z) c R b' c' R',
     consumer_step (cfg:=buffer4) b c R b' c' R' ->
     write_pointer (rpwp_ b') = write_pointer (rpwp_ b) /\
     is_write_locked (rpwp_ b') = is_write_locked (rpwp_ b) /\
     elements_ b' = elements_ b).
Proof.
  exact (threads_change_own_half (cfg:=buffer4) eq_refl (T:=Z)).
Defined.

